(** * VR Music Remote: the poller, the Tk callback queue and the marquee

    A shallow embedding of [vr_music_remote.py]: the per-poll normalisation
    [get_now_playing_and_art], the change-detecting [_update_loop], the
    callbacks it schedules with [after], and the marquee methods
    [_start_marquee] / [_tick_marquee] together with [_set_art] and
    [destroy]. *)

From Stdlib Require Import String Ascii.
From Stdlib Require Import List Arith Lia Bool NArith ZArith.
From Stdlib Require Strings.Byte.
Import ListNotations.

Set Implicit Arguments.

(** ** Python values *)

(** A Python [str] is a sequence of Unicode code points, so that [len],
    slicing and [ljust] count characters, not encoded bytes. *)
Definition char := N.
Definition str := list char.
Definition bytes := list Byte.byte.

(** ASCII literals of the source, as code points. *)
Fixpoint lit (s : string) : str :=
  match s with
  | EmptyString => []
  | String a s' => N_of_ascii a :: lit s'
  end.

Definition SPACE : char := 32%N.
Definition NOTE : char := 127925%N.     (* U+1F3B5, the musical note glyph *)
Definition BULLET : char := 8226%N.     (* U+2022 *)

Fixpoint str_eqb (a b : str) : bool :=
  match a, b with
  | [], [] => true
  | x :: a', y :: b' => N.eqb x y && str_eqb a' b'
  | _, _ => false
  end.

(** [str.isspace] on one code point, the table of CPython. *)
Definition isspace (c : char) : bool :=
  ((9 <=? c) && (c <=? 13) || (28 <=? c) && (c <=? 32)
   || (c =? 133) || (c =? 160) || (c =? 5760)
   || (8192 <=? c) && (c <=? 8202)
   || (c =? 8232) || (c =? 8233) || (c =? 8239) || (c =? 8287)
   || (c =? 12288))%N.

Fixpoint lstrip (s : str) : str :=
  match s with
  | [] => []
  | c :: s' => if isspace c then lstrip s' else s
  end.

Definition rstrip (s : str) : str := rev (lstrip (rev s)).

(** [s.strip()] *)
Definition strip (s : str) : str := rstrip (lstrip s).

(** [s[i:j]] for [0 <= i <= j] *)
Definition slice (s : str) (i j : nat) : str := firstn (j - i) (skipn i s).

(** [s.ljust(w)] *)
Definition ljust (s : str) (w : nat) : str := s ++ repeat SPACE (w - length s).

(** [x or ""] for an attribute that may be [None] *)
Definition or_empty (x : option str) : str :=
  match x with
  | Some s => s
  | None => []
  end.

(** Truthiness of a [str]: non-empty. *)
Definition truthy (s : str) : bool :=
  match s with
  | [] => false
  | _ :: _ => true
  end.

(** ** Exceptions *)

(** A call either returns or raises; [try_except] is [try: ... except
    Exception: ...]. *)
Inductive res (A : Type) : Type :=
| Ok (a : A)
| Raise.
Arguments Raise {A}.

Definition bind {A B : Type} (m : res A) (k : A -> res B) : res B :=
  match m with
  | Ok a => k a
  | Raise => Raise
  end.

Notation "x <- m ;; k" := (bind m (fun x => k))
  (at level 61, m at next level, right associativity).

Definition try_except {A : Type} (body handler : res A) : res A :=
  match body with
  | Ok a => Ok a
  | Raise => handler
  end.

(** ** UI configuration *)

Definition ART_SIZE : nat := 86.
Definition MARQUEE_ENABLED : bool := true.
Definition MARQUEE_WINDOW_CHARS : nat := 36.
Definition MARQUEE_DELAY_MS : nat := 350.
Definition MARQUEE_START_PAUSE_MS : nat := 3500.
Definition MARQUEE_GAP : str := [SPACE; SPACE; SPACE; BULLET; SPACE; SPACE; SPACE].

(** ** The media-session provider, as the poll sees it *)

(** The opened thumbnail stream: its size, and what reading [size] bytes
    through the [DataReader] gives (it may raise). *)
Record stream : Type := {
  size : Z;
  read_bytes : res bytes
}.

Record thumbnail_ref : Type := {
  open_read_async : res stream
}.

Record props : Type := {
  title : option str;
  artist : option str;
  thumbnail : option thumbnail_ref
}.

Record session : Type := {
  try_get_media_properties_async : res props
}.

Record manager : Type := {
  get_current_session : option session
}.

(** The outcome of [MediaManager.request_async()]. *)
Definition request := res manager.

(** The artwork block of [get_now_playing_and_art] (lines 82-96). *)
Definition read_thumbnail (thumb : option thumbnail_ref) : res (option bytes) :=
  match thumb with
  | None => Ok None
  | Some th =>
      try_except
        (st <- open_read_async th ;;
         if (0 <? size st)%Z
         then (buf <- read_bytes st ;; Ok (Some buf))
         else Ok None)
        (Ok None)
  end.

Definition get_now_playing_and_art (request_async : request)
  : res (str * str * option bytes) :=
  mgr <- request_async ;;
  match get_current_session mgr with
  | None => Ok (lit "Nothing playing", [], None)
  | Some sess =>
      p <- try_get_media_properties_async sess ;;
      let title := strip (or_empty (title p)) in
      let artist := strip (or_empty (artist p)) in
      img_bytes <- read_thumbnail (thumbnail p) ;;
      let title :=
        if negb (truthy title) && negb (truthy artist)
        then lit "Playing (no metadata)"
        else title in
      Ok (title, artist, img_bytes)
  end.

(** ** Callbacks handed to Tk's [after] *)

Inductive callback : Type :=
| CbStartMarquee (line : str)            (* self._start_marquee, line *)
| CbSetArt (img_bytes : option bytes)    (* self._set_art, img_bytes *)
| CbTick.                                (* self._tick_marquee *)

(** ** The poller *)

Definition track := (str * str)%type.

(** [cur != last], where [last] is [None] or a pair *)
Definition differs (cur : track) (last : option track) : bool :=
  match last with
  | None => true
  | Some (t, a) => negb (str_eqb (fst cur) t && str_eqb (snd cur) a)
  end.

Definition display_line (title : str) : str :=
  if truthy title
  then [NOTE; SPACE] ++ title
  else [NOTE; SPACE] ++ lit "(unknown)".

Definition ERROR_LINE : str := [NOTE; SPACE] ++ lit "(unable to read media session)".

(** One iteration of the [while] of [_update_loop]: the new value of
    [last] and the [self.after(0, ...)] calls made, in order. *)
Definition _update_loop_body (request_async : request) (last : option track)
  : option track * list callback :=
  match get_now_playing_and_art request_async with
  | Ok (title, artist, img_bytes) =>
      let cur := (title, artist) in
      if differs cur last
      then (Some cur, [CbStartMarquee (display_line title); CbSetArt img_bytes])
      else (last, [])
  | Raise =>
      (last, [CbStartMarquee ERROR_LINE; CbSetArt None])
  end.

(** The loop from a given [last], over the provider outcomes of the
    iterations it runs; the result lists what each iteration scheduled. *)
Fixpoint _update_loop_from (last : option track) (polls : list request)
  : list (list callback) :=
  match polls with
  | [] => []
  | r :: polls' =>
      let '(last', calls) := _update_loop_body r last in
      calls :: _update_loop_from last' polls'
  end.

(** [_update_loop]: [last = None] on entry. *)
Definition _update_loop (polls : list request) : list (list callback) :=
  _update_loop_from None polls.

(** The normalised pair an outcome carries, if it is a success. *)
Definition pair_of (r : request) : option track :=
  match get_now_playing_and_art r with
  | Ok (t, a, _) => Some (t, a)
  | Raise => None
  end.

Definition succeeds (r : request) : Prop :=
  exists x, get_now_playing_and_art r = Ok x.

(** The value of [last] after the loop has run over [polls]. *)
Definition last_after (last : option track) (polls : list request)
  : option track :=
  fold_left (fun l r => fst (_update_loop_body r l)) polls last.

(** What one iteration writes when it reads the pair [(t, a)] with
    artwork [img]. *)
Definition update_of (t : str) (img : option bytes) : list callback :=
  [CbStartMarquee (display_line t); CbSetArt img].

Definition error_update : list callback :=
  [CbStartMarquee ERROR_LINE; CbSetArt None].

(** The reading of the poller under which a lasting failure is written
    once: an iteration that fails right after a failing one writes
    nothing. *)
Definition sustained_failure_written_once : Prop :=
  forall polls k r r',
    nth_error polls k = Some r ->
    nth_error polls (S k) = Some r' ->
    get_now_playing_and_art r = Raise ->
    get_now_playing_and_art r' = Raise ->
    nth (S k) (_update_loop polls) [] = [].

(** Sample provider outcomes. *)
Definition session_with (p : props) : request :=
  Ok {| get_current_session :=
          Some {| try_get_media_properties_async := Ok p |} |}.

Definition no_session : request := Ok {| get_current_session := None |}.

Definition playing (t a : string) : request :=
  session_with {| title := Some (lit t); artist := Some (lit a);
                  thumbnail := None |}.

Definition failing : request := Raise.

(** The pair of the latest successful poll among [polls], if any. *)
Definition most_recent_success (polls : list request) : option track :=
  match find (fun r => match pair_of r with Some _ => true | None => false end)
             (rev polls) with
  | Some r => pair_of r
  | None => None
  end.

(** ** System media keys *)

Definition KEYEVENTF_KEYUP : Z := 2.

Definition VK_MEDIA_NEXT_TRACK : Z := 176.   (* 0xB0 *)
Definition VK_MEDIA_PREV_TRACK : Z := 177.   (* 0xB1 *)
Definition VK_MEDIA_PLAY_PAUSE : Z := 179.   (* 0xB3 *)
Definition VK_VOLUME_MUTE : Z := 173.        (* 0xAD *)
Definition VK_VOLUME_DOWN : Z := 174.        (* 0xAE *)
Definition VK_VOLUME_UP : Z := 175.          (* 0xAF *)

(** One call [user32.keybd_event(bVk, bScan, dwFlags, dwExtraInfo)]. *)
Record keybd_event : Type := {
  bVk : Z;
  bScan : Z;
  dwFlags : Z;
  dwExtraInfo : Z
}.

(** [press_vk]: the calls it adds to those already made. *)
Definition press_vk (vk : Z) (sent : list keybd_event) : list keybd_event :=
  sent ++ [{| bVk := vk; bScan := 0; dwFlags := 0; dwExtraInfo := 0 |};
           {| bVk := vk; bScan := 0; dwFlags := KEYEVENTF_KEYUP;
              dwExtraInfo := 0 |}].

(** The six buttons of [_build_ui], with the key each one presses and
    its (column, row) in the grid. *)
Inductive button : Type :=
| BtnPrev | BtnPlayPause | BtnNext | BtnVolumeDown | BtnMute | BtnVolumeUp.

Definition button_vk (b : button) : Z :=
  match b with
  | BtnPrev => VK_MEDIA_PREV_TRACK
  | BtnPlayPause => VK_MEDIA_PLAY_PAUSE
  | BtnNext => VK_MEDIA_NEXT_TRACK
  | BtnVolumeDown => VK_VOLUME_DOWN
  | BtnMute => VK_VOLUME_MUTE
  | BtnVolumeUp => VK_VOLUME_UP
  end.

Definition button_cell (b : button) : nat * nat :=
  match b with
  | BtnPrev => (0, 0)
  | BtnPlayPause => (1, 0)
  | BtnNext => (2, 0)
  | BtnVolumeDown => (0, 1)
  | BtnMute => (1, 1)
  | BtnVolumeUp => (2, 1)
  end.

(** The command of a button: [lambda: press_vk(VK_...)]. *)
Definition click (sent : list keybd_event) (b : button) : list keybd_event :=
  press_vk (button_vk b) sent.

(** The keys that are down after a run of [keybd_event] calls: a call
    with the key-up flag releases its key, a call without it presses
    it. *)
Definition is_keyup (e : keybd_event) : bool :=
  negb (Z.land (dwFlags e) KEYEVENTF_KEYUP =? 0)%Z.

Fixpoint keys_down (events : list keybd_event) (down : list Z) : list Z :=
  match events with
  | [] => down
  | e :: events' =>
      keys_down events'
        (if is_keyup e
         then remove Z.eq_dec (bVk e) down
         else bVk e :: down)
  end.

(** Sample lines: one of 50 characters, one of exactly 36, a short one,
    and one of 44 characters that is short once stripped. *)
Definition long_line : str :=
  display_line (lit "A Very Long Song Title That Does Not Fit In Here").

Definition exact_line : str :=
  display_line (lit "Exactly Thirty-Four Character Song").

Definition short_line : str := display_line (lit "Song").

Definition padded_line : str :=
  repeat SPACE 20 ++ lit "Song" ++ repeat SPACE 20.

(** A sample codec, which decodes nothing. *)
Definition no_codec : bytes -> nat -> res unit := fun _ _ => Raise.

(** ** Tk timers *)

(** An entry of Tk's table of pending [after] callbacks: the identifier
    [after] returned, the delay asked for, and the callback. *)
Record timer : Type := {
  tid : nat;
  delay : nat;
  callback_of : callback
}.

Definition is_tick (cb : callback) : bool :=
  match cb with
  | CbTick => true
  | _ => false
  end.

(** ** The application object *)

Section App.

(** The image codec is an outside capability: [Image.open(...)
    .convert("RGB")], [resize] to the square of the given side and
    [ImageTk.PhotoImage], any of which may raise. *)
Variable image : Type.
Variable decode_and_resize : bytes -> nat -> res image.

Record App : Type := {
  _photo : option image;
  _stop : bool;
  _marquee_run : str;
  _marquee_i : nat;
  _marquee_job : option nat;
  _marquee_pause_job : option nat;
  now_playing_var : str;              (* the StringVar of the title label *)
  art_label_image : option image;     (* the image option of art_label *)
  pending : list timer;               (* callbacks scheduled and not yet run *)
  next_id : nat                       (* Tk numbers its timers in sequence *)
}.

Definition set_photo (v : option image) (s : App) : App :=
  {| _photo := v; _stop := _stop s; _marquee_run := _marquee_run s;
     _marquee_i := _marquee_i s; _marquee_job := _marquee_job s;
     _marquee_pause_job := _marquee_pause_job s;
     now_playing_var := now_playing_var s;
     art_label_image := art_label_image s;
     pending := pending s; next_id := next_id s |}.

Definition set_stop (v : bool) (s : App) : App :=
  {| _photo := _photo s; _stop := v; _marquee_run := _marquee_run s;
     _marquee_i := _marquee_i s; _marquee_job := _marquee_job s;
     _marquee_pause_job := _marquee_pause_job s;
     now_playing_var := now_playing_var s;
     art_label_image := art_label_image s;
     pending := pending s; next_id := next_id s |}.

Definition set_marquee_run (v : str) (s : App) : App :=
  {| _photo := _photo s; _stop := _stop s; _marquee_run := v;
     _marquee_i := _marquee_i s; _marquee_job := _marquee_job s;
     _marquee_pause_job := _marquee_pause_job s;
     now_playing_var := now_playing_var s;
     art_label_image := art_label_image s;
     pending := pending s; next_id := next_id s |}.

Definition set_marquee_i (v : nat) (s : App) : App :=
  {| _photo := _photo s; _stop := _stop s; _marquee_run := _marquee_run s;
     _marquee_i := v; _marquee_job := _marquee_job s;
     _marquee_pause_job := _marquee_pause_job s;
     now_playing_var := now_playing_var s;
     art_label_image := art_label_image s;
     pending := pending s; next_id := next_id s |}.

Definition set_marquee_job (v : option nat) (s : App) : App :=
  {| _photo := _photo s; _stop := _stop s; _marquee_run := _marquee_run s;
     _marquee_i := _marquee_i s; _marquee_job := v;
     _marquee_pause_job := _marquee_pause_job s;
     now_playing_var := now_playing_var s;
     art_label_image := art_label_image s;
     pending := pending s; next_id := next_id s |}.

Definition set_marquee_pause_job (v : option nat) (s : App) : App :=
  {| _photo := _photo s; _stop := _stop s; _marquee_run := _marquee_run s;
     _marquee_i := _marquee_i s; _marquee_job := _marquee_job s;
     _marquee_pause_job := v;
     now_playing_var := now_playing_var s;
     art_label_image := art_label_image s;
     pending := pending s; next_id := next_id s |}.

(** [self.now_playing_var.set(v)] *)
Definition now_playing_var_set (v : str) (s : App) : App :=
  {| _photo := _photo s; _stop := _stop s; _marquee_run := _marquee_run s;
     _marquee_i := _marquee_i s; _marquee_job := _marquee_job s;
     _marquee_pause_job := _marquee_pause_job s;
     now_playing_var := v;
     art_label_image := art_label_image s;
     pending := pending s; next_id := next_id s |}.

(** [self.art_label.configure(image=v)], with [None] for [""] *)
Definition art_label_configure (v : option image) (s : App) : App :=
  {| _photo := _photo s; _stop := _stop s; _marquee_run := _marquee_run s;
     _marquee_i := _marquee_i s; _marquee_job := _marquee_job s;
     _marquee_pause_job := _marquee_pause_job s;
     now_playing_var := now_playing_var s;
     art_label_image := v;
     pending := pending s; next_id := next_id s |}.

(** [self.after(ms, cb)]: the callback joins the pending ones, behind
    those already there, and its fresh identifier is returned. *)
Definition after (ms : nat) (cb : callback) (s : App) : nat * App :=
  (next_id s,
   {| _photo := _photo s; _stop := _stop s; _marquee_run := _marquee_run s;
      _marquee_i := _marquee_i s; _marquee_job := _marquee_job s;
      _marquee_pause_job := _marquee_pause_job s;
      now_playing_var := now_playing_var s;
      art_label_image := art_label_image s;
      pending := pending s
                 ++ [{| tid := next_id s; delay := ms; callback_of := cb |}];
      next_id := S (next_id s) |}).

(** [self.after_cancel(id)]; an identifier that is no longer pending
    changes nothing (the source passes over the exception). *)
Definition after_cancel (id : nat) (s : App) : App :=
  {| _photo := _photo s; _stop := _stop s; _marquee_run := _marquee_run s;
     _marquee_i := _marquee_i s; _marquee_job := _marquee_job s;
     _marquee_pause_job := _marquee_pause_job s;
     now_playing_var := now_playing_var s;
     art_label_image := art_label_image s;
     pending := filter (fun t => negb (tid t =? id)) (pending s);
     next_id := next_id s |}.

(** The state after [__init__]. *)
Definition init : App :=
  {| _photo := None; _stop := false; _marquee_run := [];
     _marquee_i := 0; _marquee_job := None; _marquee_pause_job := None;
     now_playing_var := [NOTE; SPACE] ++ lit "(loading...)";
     art_label_image := None;
     pending := []; next_id := 0 |}.

(** *** The marquee *)

(** Lines 214-227 of [_start_marquee]: cancel any existing jobs. *)
Definition cancel_jobs (s : App) : App :=
  let s := match _marquee_job s with
           | Some id => set_marquee_job None (after_cancel id s)
           | None => s
           end in
  let s := match _marquee_pause_job s with
           | Some id => set_marquee_pause_job None (after_cancel id s)
           | None => s
           end in
  s.

Definition _start_marquee (text : str) (s : App) : App :=
  let s := cancel_jobs s in
  if negb MARQUEE_ENABLED then now_playing_var_set text s
  else
    let t := strip text in
    if length t <=? MARQUEE_WINDOW_CHARS then now_playing_var_set t s
    else
      (* Show start, pause, then scroll *)
      let s := now_playing_var_set (firstn MARQUEE_WINDOW_CHARS t) s in
      let s := set_marquee_run (t ++ MARQUEE_GAP ++ t) s in
      let s := set_marquee_i 0 s in
      let '(id, s) := after MARQUEE_START_PAUSE_MS CbTick s in
      set_marquee_pause_job (Some id) s.

Definition _tick_marquee (s : App) : App :=
  if _stop s || negb (truthy (_marquee_run s)) then s
  else
    let n := length (_marquee_run s) in
    let i := _marquee_i s mod n in
    let shown := ljust (slice (_marquee_run s) i (i + MARQUEE_WINDOW_CHARS))
                       MARQUEE_WINDOW_CHARS in
    let s := now_playing_var_set shown s in
    let s := set_marquee_i (_marquee_i s + 1) s in
    let '(id, s) := after MARQUEE_DELAY_MS CbTick s in
    set_marquee_job (Some id) s.

(** *** The artwork setter *)

Definition clear_art (s : App) : App :=
  set_photo None (art_label_configure None s).

Definition _set_art (img_bytes : option bytes) (s : App) : res App :=
  match img_bytes with
  | None => Ok (clear_art s)
  | Some [] => Ok (clear_art s)
  | Some b =>
      try_except
        (img <- decode_and_resize b ART_SIZE ;;
         Ok (art_label_configure (Some img) (set_photo (Some img) s)))
        (Ok (clear_art s))
  end.

(** *** Closing the window *)

(** [destroy], up to the call of [super().destroy()]. *)
Definition destroy (s : App) : App :=
  let s := set_stop true s in
  let s := match _marquee_job s with
           | Some id => after_cancel id s
           | None => s
           end in
  let s := match _marquee_pause_job s with
           | Some id => after_cancel id s
           | None => s
           end in
  s.

(** *** The Tk side: running what was scheduled *)

(** Tk calls the scheduled method; an exception leaving a callback is
    reported by Tk and the main loop goes on. *)
Definition run_callback (cb : callback) (s : App) : App :=
  match cb with
  | CbStartMarquee line => _start_marquee line s
  | CbSetArt img_bytes =>
      match _set_art img_bytes s with
      | Ok s' => s'
      | Raise => s
      end
  | CbTick => _tick_marquee s
  end.

(** A pending timer fires: it leaves the table, then its callback runs. *)
Definition fire (t : timer) (s : App) : App :=
  run_callback (callback_of t) (after_cancel (tid t) s).

(** One turn of the main loop on the callbacks that are due at once
    ([after(0, ...)]): the oldest of them fires. *)
Definition process_due (s : App) : App :=
  match find (fun t => delay t =? 0) (pending s) with
  | Some t => fire t s
  | None => s
  end.

(** The [after(0, ...)] calls of one poller iteration arriving at Tk. *)
Definition post (calls : list callback) (s : App) : App :=
  fold_left (fun s cb => snd (after 0 cb s)) calls s.

(** The live marquee timers (start pause or tick), and the updates from
    the poller that wait to be run, oldest first. *)
Definition marquee_timers (s : App) : list timer :=
  filter (fun t => is_tick (callback_of t)) (pending s).

Definition channel (s : App) : list callback :=
  filter (fun cb => negb (is_tick cb)) (map callback_of (pending s)).

(** The live marquee timer fires, if there is one. *)
Definition fire_marquee_timer (s : App) : App :=
  match marquee_timers s with
  | t :: _ => fire t s
  | [] => s
  end.

(** What can happen to the application object: the poller schedules an
    update callback, a pending timer fires, the window is closed. *)
Inductive step : App -> App -> Prop :=
| step_after : forall s cb,
    is_tick cb = false -> step s (snd (after 0 cb s))
| step_fire : forall s t,
    In t (pending s) -> step s (fire t s)
| step_destroy : forall s,
    step s (destroy s).

Inductive reachable : App -> Prop :=
| reachable_init : reachable init
| reachable_step : forall s s', reachable s -> step s s' -> reachable s'.

(** Every live marquee timer is held in one of the two job attributes,
    and timer identifiers in use are below the next one. *)
Definition tracked (s : App) : Prop :=
  forall t, In t (pending s) -> is_tick (callback_of t) = true ->
            _marquee_job s = Some (tid t) \/ _marquee_pause_job s = Some (tid t).

Definition ids_fresh (s : App) : Prop :=
  forall t, In t (pending s) -> tid t < next_id s.

(** The marquee timers are the ones with a delay; the poller's updates
    are scheduled with none. *)
Definition delay_ok (t : timer) : Prop :=
  (delay t =? 0) = negb (is_tick (callback_of t)).

(** A job attribute names a marquee timer or a timer that is gone, and
    only identifiers already handed out. *)
Definition held (s : App) (id : nat) : Prop :=
  _marquee_job s = Some id \/ _marquee_pause_job s = Some id.

Definition held_are_ticks (s : App) : Prop :=
  forall t, In t (pending s) -> held s (tid t) ->
            is_tick (callback_of t) = true.

Definition jobs_fresh (s : App) : Prop :=
  forall id, held s id -> id < next_id s.

Record wf (s : App) : Prop := {
  wf_tracked : tracked s;
  wf_one : length (marquee_timers s) <= 1;
  wf_fresh : ids_fresh s;
  wf_nodup : NoDup (map tid (pending s));
  wf_delay : Forall delay_ok (pending s);
  wf_held : held_are_ticks s;
  wf_jobs : jobs_fresh s
}.

(** The state depends on the timer table, the identifier counter and the
    two job attributes only, as far as [wf] goes. *)
Definition same_timers (s s' : App) : Prop :=
  pending s' = pending s /\ next_id s' = next_id s /\
  _marquee_job s' = _marquee_job s /\
  _marquee_pause_job s' = _marquee_pause_job s.

(** The callbacks that are due at once, oldest first. *)
Definition due (s : App) : list timer :=
  filter (fun t => delay t =? 0) (pending s).

(** *** The poller's writes as the rendering side receives them *)

(** An update is a display line with its artwork; writing it is the two
    [after(0, ...)] calls of lines 287-288 (or 291-292). *)
Definition update := (str * option bytes)%type.

Definition payload (u : update) : list callback :=
  [CbStartMarquee (fst u); CbSetArt (snd u)].

Definition write (u : update) (s : App) : App := post (payload u) s.

(** The reading under which the channel keeps one slot: a second write
    replaces a first one that was not yet taken. *)
Definition single_slot : Prop :=
  forall s u1 u2,
    channel s = [] ->
    channel (write u2 (write u1 s)) = payload u2.

(** What the panel shows and which timers remain, identifiers aside. *)
Definition shown (s : App) : str * option image * list (nat * callback) :=
  (now_playing_var s, art_label_image s,
   map (fun t => (delay t, callback_of t)) (pending s)).

(** The window of the scroll buffer shown at cursor [k]. *)
Definition window (buf : str) (k : nat) : str :=
  let i := k mod length buf in
  ljust (slice buf i (i + MARQUEE_WINDOW_CHARS)) MARQUEE_WINDOW_CHARS.

(** * Properties *)

(** ** Strings *)

Lemma str_eqb_eq : forall a b, str_eqb a b = true <-> a = b.
Proof.
  induction a as [|x a IH]; destruct b as [|y b]; simpl; split;
    try congruence; try reflexivity.
  - intros H. apply andb_true_iff in H. destruct H as [Hx Hab].
    apply N.eqb_eq in Hx. apply IH in Hab. congruence.
  - intros H. injection H as -> ->. rewrite N.eqb_refl. simpl.
    apply IH. reflexivity.
Qed.

Lemma differs_false : forall cur last,
  differs cur last = false <-> last = Some cur.
Proof.
  intros [t a] [[t' a']|]; simpl; split; try discriminate.
  - intros H. apply negb_false_iff, andb_true_iff in H.
    destruct H as [H1 H2]. apply str_eqb_eq in H1, H2. congruence.
  - intros H. injection H as -> ->. apply negb_false_iff, andb_true_iff.
    split; apply str_eqb_eq; reflexivity.
Qed.

Lemma differs_true : forall cur last,
  differs cur last = true <-> last <> Some cur.
Proof.
  intros cur last. split.
  - intros H E. apply differs_false in E. congruence.
  - intros H. destruct (differs cur last) eqn:E; [reflexivity|].
    apply differs_false in E. contradiction.
Qed.

Lemma lstrip_blank : forall s, forallb isspace s = true -> lstrip s = [].
Proof.
  induction s as [|c s IH]; simpl; [reflexivity|].
  intros H. apply andb_true_iff in H. destruct H as [Hc Hs].
  rewrite Hc. auto.
Qed.

Lemma strip_blank : forall s, forallb isspace s = true -> strip s = [].
Proof.
  intros s H. unfold strip. rewrite (lstrip_blank s H). reflexivity.
Qed.

Lemma lstrip_length : forall s, length (lstrip s) <= length s.
Proof.
  induction s as [|c s IH]; simpl; [lia|].
  destruct (isspace c); simpl; lia.
Qed.

Lemma strip_length : forall s, length (strip s) <= length s.
Proof.
  intros s. unfold strip, rstrip. rewrite length_rev.
  etransitivity; [apply lstrip_length|]. rewrite length_rev.
  apply lstrip_length.
Qed.

Lemma lstrip_idempotent : forall s, lstrip (lstrip s) = lstrip s.
Proof.
  induction s as [|c s IH]; simpl; [reflexivity|].
  destruct (isspace c) eqn:E; [exact IH|]. simpl. rewrite E. reflexivity.
Qed.

Lemma lstrip_fixed_app : forall s r,
  s <> [] -> lstrip s = s -> lstrip (s ++ r) = s ++ r.
Proof.
  intros [|c s] r Hne H; [contradiction|]. simpl in *.
  destruct (isspace c); [|reflexivity].
  exfalso. pose proof (lstrip_length s) as Hl. rewrite H in Hl.
  simpl in Hl. lia.
Qed.

Lemma rev_strip : forall s, rev (strip s) = lstrip (rev (lstrip s)).
Proof.
  intros s. unfold strip, rstrip. apply rev_involutive.
Qed.

(** A text with no whitespace at its end stays as it is behind the
    prefix of the display line. *)
Lemma strip_display_line : forall t,
  lstrip (rev t) = rev t -> strip (display_line t) = display_line t.
Proof.
  intros [|c t] H; [reflexivity|].
  unfold display_line. cbn [truthy app]. unfold strip, rstrip.
  change (lstrip (NOTE :: SPACE :: c :: t)) with (NOTE :: SPACE :: c :: t).
  change (rev (NOTE :: SPACE :: c :: t))
    with ((rev (c :: t) ++ [SPACE]) ++ [NOTE]).
  rewrite <- app_assoc. rewrite lstrip_fixed_app; [| | exact H].
  - rewrite rev_app_distr, rev_involutive. reflexivity.
  - simpl. intros E. apply app_eq_nil in E. destruct E as [_ E].
    discriminate.
Qed.

(** ** The provider adapter *)

Lemma read_thumbnail_returns : forall thumb,
  exists img, read_thumbnail thumb = Ok img.
Proof.
  intros [[[[sz [buf|]]|]]|]; simpl; try (eexists; reflexivity).
  - destruct (0 <? sz)%Z; simpl; eexists; reflexivity.
  - destruct (0 <? sz)%Z; simpl; eexists; reflexivity.
Qed.

Lemma read_thumbnail_failure : forall th,
  open_read_async th = Raise \/
  (exists st, open_read_async th = Ok st /\ read_bytes st = Raise) ->
  read_thumbnail (Some th) = Ok None.
Proof.
  intros [o] [H | [st [H1 H2]]]; simpl in *; subst; simpl; [reflexivity|].
  rewrite H2. destruct (0 <? size st)%Z; reflexivity.
Qed.

(** The title a poll returns has no whitespace at its end. *)
Lemma polled_title_stripped : forall r t a img,
  get_now_playing_and_art r = Ok (t, a, img) -> lstrip (rev t) = rev t.
Proof.
  intros [[[[[p|]]|]]|] t a img H; simpl in H; try discriminate.
  - destruct (read_thumbnail (thumbnail p)) as [o|]; simpl in H;
      [| discriminate].
    destruct (truthy (strip (or_empty (title p)))) eqn:Et; simpl in H.
    + injection H as <- _ _. rewrite rev_strip. apply lstrip_idempotent.
    + destruct (truthy (strip (or_empty (artist p)))); simpl in H;
        injection H as <- _ _; try reflexivity.
      rewrite rev_strip. apply lstrip_idempotent.
  - injection H as <- _ _. reflexivity.
Qed.

(** Every line the poller hands to the marquee is its own stripped
    form. *)
Lemma poller_line_stripped : forall r last line,
  In (CbStartMarquee line) (snd (_update_loop_body r last)) ->
  strip line = line.
Proof.
  intros r last line. unfold _update_loop_body.
  destruct (get_now_playing_and_art r) as [[[t a] img]|] eqn:E.
  - destruct (differs (t, a) last); simpl; [| intros []].
    intros [H | [H | []]]; [| discriminate]. injection H as <-.
    apply strip_display_line. exact (polled_title_stripped r E).
  - simpl. intros [H | [H | []]]; [| discriminate]. injection H as <-.
    vm_compute. reflexivity.
Qed.

(** ** The update loop *)

Lemma body_success_last : forall r last t a img,
  get_now_playing_and_art r = Ok (t, a, img) ->
  fst (_update_loop_body r last) = Some (t, a).
Proof.
  intros r last t a img H. unfold _update_loop_body. rewrite H.
  destruct (differs (t, a) last) eqn:E; simpl; [reflexivity|].
  apply differs_false in E. exact E.
Qed.

Lemma body_success_calls : forall r last t a img,
  get_now_playing_and_art r = Ok (t, a, img) ->
  snd (_update_loop_body r last) =
  if differs (t, a) last then update_of t img else [].
Proof.
  intros r last t a img H. unfold _update_loop_body. rewrite H.
  destruct (differs (t, a) last); reflexivity.
Qed.

Lemma body_failure : forall r last,
  get_now_playing_and_art r = Raise ->
  _update_loop_body r last = (last, error_update).
Proof.
  intros r last H. unfold _update_loop_body. rewrite H. reflexivity.
Qed.

Lemma loop_from_nth : forall polls last k r,
  nth_error polls k = Some r ->
  nth_error (_update_loop_from last polls) k =
  Some (snd (_update_loop_body r (last_after last (firstn k polls)))).
Proof.
  induction polls as [|r0 polls IH]; intros last k r H.
  - destruct k; discriminate.
  - destruct k as [|k]; simpl in *.
    + injection H as ->. destruct (_update_loop_body r last); reflexivity.
    + destruct (_update_loop_body r0 last) as [last' calls] eqn:E. simpl.
      rewrite (IH last' k r H). unfold last_after.
      cbn [firstn fold_left]. reflexivity.
Qed.

Lemma last_after_snoc : forall polls last k r,
  nth_error polls k = Some r ->
  last_after last (firstn (S k) polls) =
  fst (_update_loop_body r (last_after last (firstn k polls))).
Proof.
  induction polls as [|r0 polls IH]; intros last k r H.
  - destruct k; discriminate.
  - destruct k as [|k].
    + simpl in H. injection H as ->. reflexivity.
    + simpl in H. change (firstn (S (S k)) (r0 :: polls))
        with (r0 :: firstn (S k) polls).
      change (firstn (S k) (r0 :: polls)) with (r0 :: firstn k polls).
      unfold last_after in *. cbn [fold_left]. apply IH. exact H.
Qed.

Lemma nth_of_nth_error : forall (A : Type) (l : list A) k x d,
  nth_error l k = Some x -> nth k l d = x.
Proof.
  intros A l k x d H. apply nth_error_nth. exact H.
Qed.

Lemma loop_emitted : forall polls last k r,
  nth_error polls k = Some r ->
  nth k (_update_loop_from last polls) [] =
  snd (_update_loop_body r (last_after last (firstn k polls))).
Proof.
  intros polls last k r H. apply nth_of_nth_error.
  apply loop_from_nth. exact H.
Qed.

Lemma last_after_success : forall polls last j r' t' a' i',
  nth_error polls j = Some r' ->
  get_now_playing_and_art r' = Ok (t', a', i') ->
  last_after last (firstn (S j) polls) = Some (t', a').
Proof.
  intros polls last j r' t' a' i' Hn Hg.
  rewrite (last_after_snoc polls last j Hn).
  apply body_success_last with (img := i'). exact Hg.
Qed.

Lemma update_of_not_nil : forall t img, update_of t img <> [].
Proof. intros t img. discriminate. Qed.

(** C1: over successful provider results, an iteration of the update loop
    schedules the display-line update exactly when its normalised
    (title, artist) pair differs from the pair of the iteration before;
    the first iteration always does, since [last] starts as [None]; an
    iteration with an unchanged pair schedules nothing. *)
Theorem update_emitted_iff_pair_changed :
  forall polls k r t a img,
    Forall succeeds polls ->
    nth_error polls k = Some r ->
    get_now_playing_and_art r = Ok (t, a, img) ->
    let emitted := nth k (_update_loop polls) [] in
    let changed :=
      k = 0 \/
      exists r', nth_error polls (k - 1) = Some r' /\
                 pair_of r' <> Some (t, a) in
    (changed <-> emitted = update_of t img) /\ (~ changed <-> emitted = []).
Proof.
  intros polls k r t a img Hall Hk Hg emitted changed.
  assert (Hem : emitted =
                if differs (t, a) (last_after None (firstn k polls))
                then update_of t img else []).
  { unfold emitted, _update_loop. rewrite (loop_emitted polls None k Hk).
    apply body_success_calls. exact Hg. }
  assert (Hch : changed <->
                differs (t, a) (last_after None (firstn k polls)) = true).
  { unfold changed. destruct k as [|j].
    - simpl. split; [reflexivity | intros _; left; reflexivity].
    - assert (Hj : j < length polls).
      { apply Nat.lt_succ_l. apply nth_error_Some. congruence. }
      destruct (nth_error polls j) as [r'|] eqn:Hr';
        [| apply nth_error_None in Hr'; lia].
      rewrite Forall_forall in Hall.
      destruct (Hall r' (nth_error_In _ _ Hr')) as [[[t' a'] i'] Hg'].
      rewrite (last_after_success polls None j Hr' Hg').
      replace (S j - 1) with j by lia. rewrite differs_true.
      assert (Hp : pair_of r' = Some (t', a')).
      { unfold pair_of. rewrite Hg'. reflexivity. }
      split.
      + intros [H0 | [r'' [Hn Hne]]]; [discriminate|].
        rewrite Hr' in Hn. injection Hn as <-. rewrite Hp in Hne. exact Hne.
      + intros Hne. right. exists r'. split; [exact Hr'|].
        rewrite Hp. exact Hne. }
  rewrite Hem. destruct (differs _ _) eqn:E; split; split; intros H.
  - reflexivity.
  - apply Hch. reflexivity.
  - exfalso. apply H. apply Hch. reflexivity.
  - exfalso. exact (update_of_not_nil H).
  - apply Hch in H. discriminate.
  - symmetry in H. exfalso. exact (update_of_not_nil H).
  - reflexivity.
  - intros Hc. apply Hch in Hc. discriminate.
Qed.

(** C3, on the code: a failing iteration leaves [last] as it was,
    so a recovery to the track that played before the failure is not seen
    as a change: over the polls "Song", failure, "Song" the loop writes the
    track's line, then the error line, then nothing, and the panel keeps
    the error line. *)
Theorem recovery_to_same_track_writes_nothing :
  (forall last, fst (_update_loop_body failing last) = last) /\
  _update_loop [playing "Song" "Band"; failing; playing "Song" "Band"] =
  [update_of (lit "Song") None; error_update; []].
Proof.
  split; [intros last; reflexivity | vm_compute; reflexivity].
Qed.

(** C7, the write-once reading fails: an iteration that fails right after
    a failing one does write again. *)
Lemma sustained_failure_rewrites_error_line :
  ~ sustained_failure_written_once.
Proof.
  intros H.
  specialize (H [failing; failing] 0 failing failing
                eq_refl eq_refl eq_refl eq_refl).
  vm_compute in H. discriminate H.
Qed.

(** C7, as the code has it: every failing iteration writes the error
    line, also when the iteration before it failed; a successful iteration
    writes exactly when its pair differs from the stored one, so a
    successful poll equal to the successful poll before it writes
    nothing. *)
Theorem poller_writes :
  forall polls last k r,
    nth_error polls k = Some r ->
    let emitted := nth k (_update_loop_from last polls) [] in
    (get_now_playing_and_art r = Raise -> emitted = error_update) /\
    (forall t a img,
        get_now_playing_and_art r = Ok (t, a, img) ->
        (emitted = update_of t img \/ emitted = []) /\
        (forall r' img', 0 < k -> nth_error polls (k - 1) = Some r' ->
                    get_now_playing_and_art r' = Ok (t, a, img') ->
                    emitted = [])).
Proof.
  intros polls last k r Hk emitted. unfold emitted.
  rewrite (loop_emitted polls last k Hk). split.
  - intros Hf. rewrite (body_failure r _ Hf). reflexivity.
  - intros t a img Hg. rewrite (body_success_calls r _ Hg). split.
    + destruct (differs _ _); [left | right]; reflexivity.
    + intros r' img' Hpos Hr' Hg'. destruct k as [|j]; [lia|].
      replace (S j - 1) with j in Hr' by lia.
      rewrite (last_after_success polls last j Hr' Hg').
      replace (differs (t, a) (Some (t, a))) with false; [reflexivity|].
      symmetry. apply differs_false. reflexivity.
Qed.

(** C8: a session whose title and artist are both empty or whitespace is
    reported with the title "Playing (no metadata)"; no session at all is
    reported as "Nothing playing" with an empty artist and no artwork. *)
Theorem normalization_placeholders :
  (forall p,
      forallb isspace (or_empty (title p)) = true ->
      forallb isspace (or_empty (artist p)) = true ->
      exists img,
        get_now_playing_and_art (session_with p) =
        Ok (lit "Playing (no metadata)", [], img)) /\
  get_now_playing_and_art no_session = Ok (lit "Nothing playing", [], None).
Proof.
  split; [| reflexivity].
  intros p Ht Ha. unfold get_now_playing_and_art, session_with. simpl.
  rewrite (strip_blank _ Ht), (strip_blank _ Ha).
  destruct (read_thumbnail_returns (thumbnail p)) as [img ->]. simpl.
  exists img. reflexivity.
Qed.

(** ** Lists of timers *)

Lemma filter_all : forall (A : Type) (f : A -> bool) (l : list A),
  (forall x, In x l -> f x = true) -> filter f l = l.
Proof.
  induction l as [|x l IH]; intros H; simpl; [reflexivity|].
  rewrite (H x (or_introl eq_refl)). f_equal. apply IH.
  intros y Hy. apply H. right. exact Hy.
Qed.

Lemma filter_none : forall (A : Type) (f : A -> bool) (l : list A),
  (forall x, In x l -> f x = false) -> filter f l = [].
Proof.
  induction l as [|x l IH]; intros H; simpl; [reflexivity|].
  rewrite (H x (or_introl eq_refl)). apply IH.
  intros y Hy. apply H. right. exact Hy.
Qed.

Lemma filter_swap : forall (A : Type) (f g : A -> bool) (l : list A),
  filter f (filter g l) = filter g (filter f l).
Proof.
  induction l as [|x l IH]; simpl; [reflexivity|].
  destruct (f x) eqn:Ef, (g x) eqn:Eg; simpl;
    rewrite ?Ef, ?Eg, IH; reflexivity.
Qed.

Lemma filter_length_le : forall (A : Type) (f : A -> bool) (l : list A),
  length (filter f l) <= length l.
Proof.
  induction l as [|x l IH]; simpl; [lia|].
  destruct (f x); simpl; lia.
Qed.

Lemma NoDup_map_filter : forall (A B : Type) (g : A -> B) (f : A -> bool) l,
  NoDup (map g l) -> NoDup (map g (filter f l)).
Proof.
  induction l as [|x l IH]; simpl; intros H; [constructor|].
  inversion H as [|? ? Hn Hd]; subst.
  destruct (f x); simpl; [|auto].
  constructor; [|auto].
  intros Hin. apply Hn. apply in_map_iff in Hin.
  destruct Hin as [y [Hy Hin]]. apply filter_In in Hin.
  apply in_map_iff. exists y. tauto.
Qed.

Lemma nil_of_no_member : forall (A : Type) (l : list A),
  (forall x, ~ In x l) -> l = [].
Proof.
  intros A [|x l] H; [reflexivity|].
  exfalso. apply (H x). left. reflexivity.
Qed.

Lemma find_filter : forall (A : Type) (f : A -> bool) (l : list A),
  find f l = hd_error (filter f l).
Proof.
  induction l as [|x l IH]; simpl; [reflexivity|].
  destruct (f x); [reflexivity | exact IH].
Qed.

(** ** Timers of the application object *)

Lemma in_after_cancel : forall id s t,
  In t (pending (after_cancel id s)) <-> In t (pending s) /\ tid t <> id.
Proof.
  intros id s t. simpl. rewrite filter_In, negb_true_iff, Nat.eqb_neq.
  reflexivity.
Qed.

Lemma marquee_timers_after_cancel : forall id s,
  marquee_timers (after_cancel id s) =
  filter (fun t => negb (tid t =? id)) (marquee_timers s).
Proof.
  intros id s. unfold marquee_timers. simpl. apply filter_swap.
Qed.

Lemma due_after_cancel : forall id s,
  due (after_cancel id s) = filter (fun t => negb (tid t =? id)) (due s).
Proof.
  intros id s. unfold due. simpl. apply filter_swap.
Qed.

Lemma wf_same_timers : forall s s', same_timers s s' -> wf s -> wf s'.
Proof.
  intros s s' (Hp & Hn & Hj & Hq) [H1 H2 H3 H4 H5 H6 H7].
  constructor; unfold tracked, marquee_timers, ids_fresh, held_are_ticks,
    jobs_fresh, held in *; rewrite ?Hp, ?Hn, ?Hj, ?Hq; assumption.
Qed.

Lemma wf_init : wf init.
Proof.
  constructor; unfold tracked, ids_fresh, held_are_ticks, jobs_fresh, held;
    simpl; try (intros; contradiction); try constructor.
  - lia.
  - intros id [H | H]; discriminate.
Qed.

Lemma wf_after_cancel : forall id s, wf s -> wf (after_cancel id s).
Proof.
  intros id s [H1 H2 H3 H4 H5 H6 H7]. constructor.
  - intros t Ht. apply in_after_cancel in Ht. apply H1. tauto.
  - rewrite marquee_timers_after_cancel.
    etransitivity; [apply filter_length_le | exact H2].
  - intros t Ht. apply in_after_cancel in Ht. apply H3. tauto.
  - simpl. apply NoDup_map_filter. exact H4.
  - simpl. rewrite Forall_forall in *. intros t Ht.
    apply filter_In in Ht. apply H5. tauto.
  - intros t Ht. apply in_after_cancel in Ht. apply H6. tauto.
  - exact H7.
Qed.

(** Scheduling an update of the poller. *)
Lemma wf_after_update : forall cb s,
  is_tick cb = false -> wf s -> wf (snd (after 0 cb s)).
Proof.
  intros cb s Hcb [H1 H2 H3 H4 H5 H6 H7]. constructor.
  - intros t Ht Htick. simpl in Ht. apply in_app_iff in Ht.
    destruct Ht as [Ht | [<- | []]]; [apply H1; assumption|].
    simpl in Htick. congruence.
  - unfold marquee_timers. simpl. rewrite filter_app. simpl. rewrite Hcb.
    rewrite app_nil_r. exact H2.
  - intros t Ht. simpl in *. apply in_app_iff in Ht.
    destruct Ht as [Ht | [<- | []]]; [apply H3 in Ht; lia | simpl; lia].
  - simpl. rewrite map_app. simpl. apply NoDup_app.
    + exact H4.
    + constructor; [intros [] | constructor].
    + intros x Hx [<- | []]. apply in_map_iff in Hx.
      destruct Hx as [t [Ht Hin]]. apply H3 in Hin. lia.
  - simpl. apply Forall_app. split; [exact H5|].
    constructor; [| constructor]. unfold delay_ok. simpl. rewrite Hcb.
    reflexivity.
  - intros t Ht Hh. simpl in Ht. apply in_app_iff in Ht.
    destruct Ht as [Ht | [<- | []]]; [apply H6; assumption|].
    simpl in Hh. apply H7 in Hh. lia.
  - intros id Hh. simpl. apply H7 in Hh. lia.
Qed.

Lemma filter_and : forall (A : Type) (f g : A -> bool) (l : list A),
  filter g (filter f l) = filter (fun x => f x && g x) l.
Proof.
  induction l as [|x l IH]; simpl; [reflexivity|].
  destruct (f x) eqn:Ef; simpl; [destruct (g x) |]; rewrite IH; reflexivity.
Qed.

(** *** Cancelling the jobs *)

Lemma cancel_jobs_pending : forall s,
  exists f, pending (cancel_jobs s) = filter f (pending s) /\
            forall t, f t = true <-> ~ held s (tid t).
Proof.
  intros s. unfold cancel_jobs, held.
  destruct (_marquee_job s) as [j|] eqn:Ej; simpl;
    rewrite ?Ej; destruct (_marquee_pause_job s) as [q|] eqn:Eq; simpl.
  - rewrite filter_and. eexists. split; [reflexivity|]. intros t. simpl.
    rewrite andb_true_iff, !negb_true_iff, !Nat.eqb_neq. split.
    + intros [H1 H2] [H | H]; injection H as H; congruence.
    + intros H. split; intros E; apply H; [left | right]; congruence.
  - eexists. split; [reflexivity|]. intros t. simpl.
    rewrite negb_true_iff, Nat.eqb_neq. split.
    + intros H1 [H | H]; [injection H as H; congruence | discriminate].
    + intros H E. apply H. left. congruence.
  - eexists. split; [reflexivity|]. intros t. simpl.
    rewrite negb_true_iff, Nat.eqb_neq. split.
    + intros H1 [H | H]; [discriminate | injection H as H; congruence].
    + intros H E. apply H. right. congruence.
  - exists (fun _ => true). split; [symmetry; apply filter_true|].
    intros t. split; [intros _ [H | H]; discriminate | reflexivity].
Qed.

Lemma cancel_jobs_fields : forall s,
  _marquee_job (cancel_jobs s) = None /\
  _marquee_pause_job (cancel_jobs s) = None /\
  next_id (cancel_jobs s) = next_id s /\
  now_playing_var (cancel_jobs s) = now_playing_var s /\
  art_label_image (cancel_jobs s) = art_label_image s /\
  _photo (cancel_jobs s) = _photo s /\
  _stop (cancel_jobs s) = _stop s /\
  _marquee_run (cancel_jobs s) = _marquee_run s /\
  _marquee_i (cancel_jobs s) = _marquee_i s.
Proof.
  intros s. unfold cancel_jobs.
  destruct (_marquee_job s) as [j|] eqn:Ej; simpl;
    rewrite ?Ej; destruct (_marquee_pause_job s) as [q|] eqn:Eq; simpl;
    repeat split; assumption || reflexivity.
Qed.

Lemma in_cancel_jobs : forall s t,
  In t (pending (cancel_jobs s)) <-> In t (pending s) /\ ~ held s (tid t).
Proof.
  intros s t. destruct (cancel_jobs_pending s) as [f [-> Hf]].
  rewrite filter_In, Hf. reflexivity.
Qed.

Lemma cancel_jobs_no_marquee_timer : forall s,
  tracked s -> marquee_timers (cancel_jobs s) = [].
Proof.
  intros s Ht. apply nil_of_no_member. intros t Hin.
  apply filter_In in Hin. destruct Hin as [Hin Htick].
  apply in_cancel_jobs in Hin. destruct Hin as [Hin Hh].
  apply Hh. apply Ht; assumption.
Qed.

Lemma delay_ok_due_not_tick : forall t,
  delay_ok t -> (delay t =? 0) = true -> is_tick (callback_of t) = false.
Proof.
  unfold delay_ok. intros t H E. rewrite E in H.
  destruct (is_tick (callback_of t)); [discriminate | reflexivity].
Qed.

Lemma cancel_jobs_due : forall s, wf s -> due (cancel_jobs s) = due s.
Proof.
  intros s W. destruct (cancel_jobs_pending s) as [f [Hp Hf]].
  unfold due. rewrite Hp, filter_swap. apply filter_all.
  intros t Ht. apply filter_In in Ht. destruct Ht as [Hin Hd].
  apply Hf. intros Hh. apply (wf_held W) in Hh; [|exact Hin].
  pose proof (wf_delay W) as HD. rewrite Forall_forall in HD.
  rewrite (delay_ok_due_not_tick (HD t Hin) Hd) in Hh. discriminate.
Qed.

Lemma wf_cancel_jobs : forall s, wf s -> wf (cancel_jobs s).
Proof.
  intros s W.
  destruct (cancel_jobs_pending s) as [f [Hp Hf]].
  destruct (cancel_jobs_fields s) as (Hj & Hq & Hn & _).
  constructor.
  - intros t Hin Htick. exfalso.
    assert (Hm : In t (marquee_timers (cancel_jobs s))).
    { apply filter_In. split; assumption. }
    rewrite (cancel_jobs_no_marquee_timer (wf_tracked W)) in Hm. exact Hm.
  - rewrite (cancel_jobs_no_marquee_timer (wf_tracked W)). simpl. lia.
  - intros t Hin. rewrite Hn. apply in_cancel_jobs in Hin.
    apply (wf_fresh W). tauto.
  - rewrite Hp. apply NoDup_map_filter. exact (wf_nodup W).
  - rewrite Hp. pose proof (wf_delay W) as HD. rewrite Forall_forall in *.
    intros t Ht. apply filter_In in Ht. apply HD. tauto.
  - intros t Hin [H | H]; congruence.
  - intros id [H | H]; congruence.
Qed.

(** *** Starting the marquee *)

Lemma start_marquee_fits : forall text s,
  length (strip text) <= MARQUEE_WINDOW_CHARS ->
  _start_marquee text s = now_playing_var_set (strip text) (cancel_jobs s).
Proof.
  intros text s H. unfold _start_marquee.
  change (negb MARQUEE_ENABLED) with false. cbv iota.
  apply Nat.leb_le in H. rewrite H. reflexivity.
Qed.

Lemma start_marquee_long : forall text s,
  MARQUEE_WINDOW_CHARS < length (strip text) ->
  _start_marquee text s =
  set_marquee_pause_job (Some (next_id s))
    (snd (after MARQUEE_START_PAUSE_MS CbTick
            (set_marquee_i 0
               (set_marquee_run (strip text ++ MARQUEE_GAP ++ strip text)
                  (now_playing_var_set
                     (firstn MARQUEE_WINDOW_CHARS (strip text))
                     (cancel_jobs s)))))).
Proof.
  intros text s H. unfold _start_marquee.
  change (negb MARQUEE_ENABLED) with false. cbv iota.
  apply Nat.leb_gt in H. rewrite H.
  destruct (cancel_jobs_fields s) as (_ & _ & Hn & _).
  unfold after. cbn [snd next_id set_marquee_i set_marquee_run
                     now_playing_var_set].
  rewrite Hn. reflexivity.
Qed.

(** Arming a marquee timer when none is live. *)
Lemma wf_arm : forall (in_job : bool) d x,
  wf x -> marquee_timers x = [] -> d <> 0 ->
  wf ((if in_job then set_marquee_job else set_marquee_pause_job)
        (Some (next_id x)) (snd (after d CbTick x))).
Proof.
  intros in_job d x W Hm Hd.
  assert (Hnotick : forall t, In t (pending x) ->
                              is_tick (callback_of t) = false).
  { intros t Hin. destruct (is_tick (callback_of t)) eqn:E; [|reflexivity].
    assert (Hx : In t (marquee_timers x)) by (apply filter_In; tauto).
    rewrite Hm in Hx. destruct Hx. }
  constructor.
  - intros t Hin Htick.
    assert (Hin' : In t (pending x ++
              [{| tid := next_id x; delay := d; callback_of := CbTick |}]))
      by (destruct in_job; exact Hin).
    apply in_app_iff in Hin'. destruct Hin' as [Hin' | [<- | []]].
    + rewrite (Hnotick t Hin') in Htick. discriminate.
    + destruct in_job; [left | right]; reflexivity.
  - unfold marquee_timers in *.
    replace (pending _) with (pending x ++
              [{| tid := next_id x; delay := d; callback_of := CbTick |}])
      by (destruct in_job; reflexivity).
    rewrite filter_app, Hm. simpl. lia.
  - intros t Hin.
    assert (Hin' : In t (pending x ++
              [{| tid := next_id x; delay := d; callback_of := CbTick |}]))
      by (destruct in_job; exact Hin).
    replace (next_id _) with (S (next_id x))
      by (destruct in_job; reflexivity).
    apply in_app_iff in Hin'. destruct Hin' as [Hin' | [<- | []]].
    + apply (wf_fresh W) in Hin'. lia.
    + simpl. lia.
  - replace (pending _) with (pending x ++
              [{| tid := next_id x; delay := d; callback_of := CbTick |}])
      by (destruct in_job; reflexivity).
    rewrite map_app. simpl. apply NoDup_app.
    + exact (wf_nodup W).
    + constructor; [intros [] | constructor].
    + intros i Hi [<- | []]. apply in_map_iff in Hi.
      destruct Hi as [t [Ht Hin]]. apply (wf_fresh W) in Hin. lia.
  - replace (pending _) with (pending x ++
              [{| tid := next_id x; delay := d; callback_of := CbTick |}])
      by (destruct in_job; reflexivity).
    apply Forall_app. split; [exact (wf_delay W)|].
    constructor; [| constructor]. unfold delay_ok. simpl.
    apply Nat.eqb_neq. exact Hd.
  - intros t Hin Hh.
    assert (Hin' : In t (pending x ++
              [{| tid := next_id x; delay := d; callback_of := CbTick |}]))
      by (destruct in_job; exact Hin).
    apply in_app_iff in Hin'. destruct Hin' as [Hin' | [<- | []]];
      [| reflexivity].
    exfalso. pose proof (wf_fresh W t Hin') as Hlt.
    assert (Hx : held x (tid t) \/ tid t = next_id x).
    { destruct in_job; destruct Hh as [H | H]; simpl in H;
        try (left; left; exact H); try (left; right; exact H);
        right; congruence. }
    destruct Hx as [Hx | Hx]; [| lia].
    apply (wf_held W) in Hx; [| exact Hin'].
    rewrite (Hnotick t Hin') in Hx. discriminate.
  - intros i Hh.
    replace (next_id _) with (S (next_id x))
      by (destruct in_job; reflexivity).
    assert (Hx : held x i \/ i = next_id x).
    { destruct in_job; destruct Hh as [H | H]; simpl in H;
        try (left; left; exact H); try (left; right; exact H);
        right; congruence. }
    destruct Hx as [Hx | Hx]; [apply (wf_jobs W) in Hx|]; lia.
Qed.

Lemma start_marquee_display : forall text s,
  now_playing_var (_start_marquee text s) =
  if length (strip text) <=? MARQUEE_WINDOW_CHARS
  then strip text
  else firstn MARQUEE_WINDOW_CHARS (strip text).
Proof.
  intros text s. destruct (Nat.leb_spec (length (strip text))
                                        MARQUEE_WINDOW_CHARS) as [H | H].
  - rewrite (start_marquee_fits text s H). reflexivity.
  - rewrite (start_marquee_long text s H). reflexivity.
Qed.

Lemma start_marquee_pending : forall text s,
  pending (_start_marquee text s) =
  pending (cancel_jobs s) ++
  if length (strip text) <=? MARQUEE_WINDOW_CHARS
  then []
  else [{| tid := next_id s; delay := MARQUEE_START_PAUSE_MS;
           callback_of := CbTick |}].
Proof.
  intros text s. destruct (Nat.leb_spec (length (strip text))
                                        MARQUEE_WINDOW_CHARS) as [H | H].
  - rewrite (start_marquee_fits text s H). simpl. rewrite app_nil_r.
    reflexivity.
  - rewrite (start_marquee_long text s H). simpl.
    destruct (cancel_jobs_fields s) as (_ & _ & -> & _). reflexivity.
Qed.

Lemma start_marquee_art : forall text s,
  art_label_image (_start_marquee text s) = art_label_image s /\
  _photo (_start_marquee text s) = _photo s /\
  _stop (_start_marquee text s) = _stop s.
Proof.
  intros text s. destruct (cancel_jobs_fields s) as (_&_&_&_& Ha & Hp & Hs &_).
  destruct (Nat.leb_spec (length (strip text)) MARQUEE_WINDOW_CHARS) as [H|H].
  - rewrite (start_marquee_fits text s H). simpl. auto.
  - rewrite (start_marquee_long text s H). simpl. auto.
Qed.

Lemma start_marquee_timers : forall text s,
  tracked s ->
  marquee_timers (_start_marquee text s) =
  if length (strip text) <=? MARQUEE_WINDOW_CHARS
  then []
  else [{| tid := next_id s; delay := MARQUEE_START_PAUSE_MS;
           callback_of := CbTick |}].
Proof.
  intros text s Ht. unfold marquee_timers.
  rewrite start_marquee_pending, filter_app.
  fold (marquee_timers (cancel_jobs s)).
  rewrite (cancel_jobs_no_marquee_timer Ht).
  destruct (length (strip text) <=? MARQUEE_WINDOW_CHARS); reflexivity.
Qed.

Lemma start_marquee_due : forall text s,
  wf s -> due (_start_marquee text s) = due s.
Proof.
  intros text s W. unfold due. rewrite start_marquee_pending, filter_app.
  fold (due (cancel_jobs s)). rewrite (cancel_jobs_due W).
  destruct (length (strip text) <=? MARQUEE_WINDOW_CHARS); simpl;
    apply app_nil_r.
Qed.

Lemma wf_start_marquee : forall text s, wf s -> wf (_start_marquee text s).
Proof.
  intros text s W. pose proof (wf_cancel_jobs W) as Wc.
  destruct (Nat.leb_spec (length (strip text)) MARQUEE_WINDOW_CHARS) as [H|H].
  - rewrite (start_marquee_fits text s H).
    apply (wf_same_timers (s := cancel_jobs s)); [|exact Wc].
    repeat split.
  - rewrite (start_marquee_long text s H).
    destruct (cancel_jobs_fields s) as (_ & _ & Hn & _).
    set (x := set_marquee_i 0 _).
    assert (Wx : wf x).
    { apply (wf_same_timers (s := cancel_jobs s)); [|exact Wc].
      repeat split. }
    replace (next_id s) with (next_id x) by exact Hn.
    apply (wf_arm false); [exact Wx | | discriminate].
    exact (cancel_jobs_no_marquee_timer (wf_tracked W)).
Qed.

(** *** A tick of the marquee *)

Lemma tick_marquee_idle : forall s,
  _stop s || negb (truthy (_marquee_run s)) = true -> _tick_marquee s = s.
Proof.
  intros s H. unfold _tick_marquee. rewrite H. reflexivity.
Qed.

Lemma tick_marquee_active : forall s,
  _stop s = false -> _marquee_run s <> [] ->
  _tick_marquee s =
  set_marquee_job (Some (next_id s))
    (snd (after MARQUEE_DELAY_MS CbTick
            (set_marquee_i (_marquee_i s + 1)
               (now_playing_var_set
                  (window (_marquee_run s) (_marquee_i s)) s)))).
Proof.
  intros s Hs Hr. unfold _tick_marquee. rewrite Hs.
  destruct (_marquee_run s) as [|c r] eqn:E; [contradiction|].
  reflexivity.
Qed.

Lemma tick_marquee_cases : forall s,
  _tick_marquee s = s \/
  (_stop s = false /\ _marquee_run s <> [] /\
   _tick_marquee s =
   set_marquee_job (Some (next_id s))
     (snd (after MARQUEE_DELAY_MS CbTick
             (set_marquee_i (_marquee_i s + 1)
                (now_playing_var_set
                   (window (_marquee_run s) (_marquee_i s)) s))))).
Proof.
  intros s. destruct (_stop s) eqn:Hs.
  - left. apply tick_marquee_idle. rewrite Hs. reflexivity.
  - destruct (_marquee_run s) as [|c r] eqn:Hr.
    + left. apply tick_marquee_idle. rewrite Hr, Hs. reflexivity.
    + right. split; [reflexivity|]. split; [discriminate|].
      rewrite <- Hr. apply tick_marquee_active; [exact Hs|].
      rewrite Hr. discriminate.
Qed.

Lemma wf_tick_marquee : forall s,
  wf s -> marquee_timers s = [] -> wf (_tick_marquee s).
Proof.
  intros s W Hm. destruct (tick_marquee_cases s) as [-> | (_ & _ & ->)];
    [exact W|].
  set (x := set_marquee_i _ _).
  assert (Wx : wf x).
  { apply (wf_same_timers (s := s)); [|exact W]. repeat split. }
  change (next_id s) with (next_id x).
  apply (wf_arm true); [exact Wx | exact Hm | discriminate].
Qed.

(** *** The artwork setter *)

Lemma set_art_returns : forall img_bytes s,
  exists s',
    _set_art img_bytes s = Ok s' /\
    same_timers s s' /\
    now_playing_var s' = now_playing_var s /\
    _stop s' = _stop s /\
    _marquee_run s' = _marquee_run s /\
    _marquee_i s' = _marquee_i s /\
    art_label_image s' = _photo s' /\
    _photo s' =
    match img_bytes with
    | Some (c :: b) =>
        match decode_and_resize (c :: b) ART_SIZE with
        | Ok img => Some img
        | Raise => None
        end
    | _ => None
    end.
Proof.
  intros [[|c b]|] s; simpl.
  - eexists. split; [reflexivity|]. repeat split.
  - destruct (decode_and_resize (c :: b) ART_SIZE) as [img|]; simpl;
      eexists; (split; [reflexivity|]); repeat split.
  - eexists. split; [reflexivity|]. repeat split.
Qed.

Lemma run_set_art : forall img_bytes s,
  same_timers s (run_callback (CbSetArt img_bytes) s) /\
  now_playing_var (run_callback (CbSetArt img_bytes) s) = now_playing_var s /\
  _stop (run_callback (CbSetArt img_bytes) s) = _stop s /\
  _marquee_run (run_callback (CbSetArt img_bytes) s) = _marquee_run s /\
  _marquee_i (run_callback (CbSetArt img_bytes) s) = _marquee_i s /\
  art_label_image (run_callback (CbSetArt img_bytes) s) =
    match img_bytes with
    | Some (c :: b) =>
        match decode_and_resize (c :: b) ART_SIZE with
        | Ok img => Some img
        | Raise => None
        end
    | _ => None
    end.
Proof.
  intros b s. simpl.
  destruct (set_art_returns b s) as (s' & -> & H1 & H2 & H3 & H4 & H5 & H6 & H7).
  rewrite H6, H7. tauto.
Qed.

(** *** Closing the window *)

Lemma wf_destroy : forall s, wf s -> wf (destroy s).
Proof.
  intros s W. unfold destroy.
  assert (W1 : wf (set_stop true s)).
  { apply (wf_same_timers (s := s)); [|exact W]. repeat split. }
  set (x := set_stop true s) in *.
  assert (W2 : wf (match _marquee_job x with
                   | Some id => after_cancel id x
                   | None => x
                   end)).
  { destruct (_marquee_job x); [apply wf_after_cancel|]; exact W1. }
  cbv zeta. destruct (_marquee_pause_job _);
    [apply wf_after_cancel|]; exact W2.
Qed.

(** *** Firing a timer *)

Lemma fired_tick_leaves_none : forall s t,
  length (marquee_timers s) <= 1 -> In t (pending s) ->
  is_tick (callback_of t) = true ->
  marquee_timers (after_cancel (tid t) s) = [].
Proof.
  intros s t Hone Hin Htick. rewrite marquee_timers_after_cancel.
  assert (Hm : In t (marquee_timers s)) by (apply filter_In; tauto).
  destruct (marquee_timers s) as [|t0 [|t1 l]]; simpl in *; try lia.
  destruct Hm as [-> | []]. rewrite Nat.eqb_refl. reflexivity.
Qed.

Lemma wf_run_callback : forall cb s,
  wf s -> (is_tick cb = true -> marquee_timers s = []) ->
  wf (run_callback cb s).
Proof.
  intros [line | b |] s W Hm.
  - apply wf_start_marquee. exact W.
  - destruct (run_set_art b s) as [Hs _].
    exact (wf_same_timers Hs W).
  - apply wf_tick_marquee; [exact W | apply Hm; reflexivity].
Qed.

Lemma wf_fire : forall s t, wf s -> In t (pending s) -> wf (fire t s).
Proof.
  intros s t W Hin. unfold fire. apply wf_run_callback.
  - apply wf_after_cancel. exact W.
  - intros Htick.
    exact (fired_tick_leaves_none s t (wf_one W) Hin Htick).
Qed.

Lemma wf_step : forall s s', wf s -> step s s' -> wf s'.
Proof.
  intros s s' W Hstep. destruct Hstep as [x cb Hcb | x t Hin | x].
  - apply wf_after_update; assumption.
  - apply wf_fire; assumption.
  - apply wf_destroy; assumption.
Qed.

Lemma reachable_wf : forall s, reachable s -> wf s.
Proof.
  induction 1 as [| s s' _ IH Hstep]; [exact wf_init|].
  exact (wf_step IH Hstep).
Qed.

(** ** The marquee timers *)

Lemma marquee_timer_is_tick : forall s t,
  In t (marquee_timers s) -> In t (pending s) /\ callback_of t = CbTick.
Proof.
  intros s t H. apply filter_In in H. destruct H as [Hin Ht].
  split; [exact Hin|]. destruct (callback_of t); try discriminate.
  reflexivity.
Qed.

(** The live marquee timer fires while the marquee is running. *)
Lemma fire_marquee_timer_active : forall s tm,
  marquee_timers s = [tm] -> _stop s = false -> _marquee_run s <> [] ->
  let s' := fire_marquee_timer s in
  _stop s' = false /\ _marquee_run s' = _marquee_run s /\
  _marquee_i s' = _marquee_i s + 1 /\
  now_playing_var s' = window (_marquee_run s) (_marquee_i s) /\
  marquee_timers s' =
  [{| tid := next_id s; delay := MARQUEE_DELAY_MS; callback_of := CbTick |}].
Proof.
  intros s tm Hm Hs Hr. unfold fire_marquee_timer. rewrite Hm.
  assert (Htm : In tm (marquee_timers s)) by (rewrite Hm; left; reflexivity).
  apply marquee_timer_is_tick in Htm. destruct Htm as [Hin Hcb].
  unfold fire. rewrite Hcb. cbn [run_callback].
  set (x := after_cancel (tid tm) s).
  assert (Hx : marquee_timers x = []).
  { unfold x. rewrite marquee_timers_after_cancel, Hm. simpl.
    rewrite Nat.eqb_refl. reflexivity. }
  rewrite (tick_marquee_active x Hs Hr).
  unfold marquee_timers in *. cbn. rewrite filter_app.
  cbn in Hx. rewrite Hx. repeat split. exact Hs.
Qed.

Lemma slice_length : forall s i j, length (slice s i j) <= j - i.
Proof.
  intros s i j. unfold slice. rewrite length_firstn. lia.
Qed.

Lemma ljust_length : forall s w, length s <= w -> length (ljust s w) = w.
Proof.
  intros s w H. unfold ljust. rewrite length_app, repeat_length. lia.
Qed.

Lemma window_length : forall buf k,
  length (window buf k) = MARQUEE_WINDOW_CHARS.
Proof.
  intros buf k. unfold window. cbv zeta. apply ljust_length.
  etransitivity; [apply slice_length|]. lia.
Qed.

(** The state of a scrolling session after the start pause has fired and
    [j] ticks after it have run. *)
Lemma scrolling_state : forall text s j,
  tracked s -> _stop s = false ->
  MARQUEE_WINDOW_CHARS < length (strip text) ->
  let buf := strip text ++ MARQUEE_GAP ++ strip text in
  let x := Nat.iter (S j) fire_marquee_timer (_start_marquee text s) in
  _stop x = false /\ _marquee_run x = buf /\ _marquee_i x = S j /\
  now_playing_var x = window buf j /\
  exists tm, marquee_timers x = [tm] /\ delay tm = MARQUEE_DELAY_MS.
Proof.
  intros text s j Ht Hs Hlen buf.
  assert (Hbuf : buf <> []).
  { unfold buf. destruct (strip text); [simpl in Hlen; lia | discriminate]. }
  assert (H0 : let x := _start_marquee text s in
               _stop x = false /\ _marquee_run x = buf /\ _marquee_i x = 0 /\
               exists tm, marquee_timers x = [tm]).
  { cbv zeta. pose proof (start_marquee_timers text Ht) as Hm.
    apply Nat.leb_gt in Hlen. rewrite Hlen in Hm.
    apply Nat.leb_gt in Hlen.
    destruct (start_marquee_art text s) as (_ & _ & Hst).
    rewrite Hst. split; [exact Hs|].
    rewrite (start_marquee_long text s Hlen) in *.
    split; [reflexivity|]. split; [reflexivity|].
    eexists. exact Hm. }
  induction j as [|j IH].
  - cbv zeta in *. destruct H0 as (A & B & C & tm & D).
    change (Nat.iter 1 fire_marquee_timer (_start_marquee text s))
      with (fire_marquee_timer (_start_marquee text s)).
    assert (Hr : _marquee_run (_start_marquee text s) <> [])
      by (rewrite B; exact Hbuf).
    destruct (fire_marquee_timer_active _ D A Hr) as (E & F & G & H & I).
    rewrite E, F, G, H, I, B, C. repeat split. eexists. split; reflexivity.
  - cbv zeta in *. destruct IH as (A & B & C & _ & tm & D & _).
    change (Nat.iter (S (S j)) fire_marquee_timer (_start_marquee text s))
      with (fire_marquee_timer
              (Nat.iter (S j) fire_marquee_timer (_start_marquee text s))).
    set (y := Nat.iter (S j) fire_marquee_timer (_start_marquee text s)) in *.
    assert (Hr : _marquee_run y <> []) by (rewrite B; exact Hbuf).
    destruct (fire_marquee_timer_active _ D A Hr) as (E & F & G & H & I).
    rewrite E, F, G, H, I, B, C. repeat split; try lia.
    eexists. split; reflexivity.
Qed.


Lemma window_explicit : forall buf k,
  window buf k =
  firstn MARQUEE_WINDOW_CHARS (skipn (k mod length buf) buf) ++
  repeat SPACE (MARQUEE_WINDOW_CHARS - (length buf - k mod length buf)).
Proof.
  intros buf k. unfold window, ljust, slice. cbv zeta.
  replace (k mod length buf + MARQUEE_WINDOW_CHARS - k mod length buf)
    with MARQUEE_WINDOW_CHARS by lia.
  rewrite length_firstn, length_skipn. f_equal. f_equal. lia.
Qed.

Lemma window_nth : forall buf k j,
  j < MARQUEE_WINDOW_CHARS ->
  nth j (window buf k) SPACE =
  if k mod length buf + j <? length buf
  then nth (k mod length buf + j) buf SPACE
  else SPACE.
Proof.
  intros buf k j Hj. rewrite window_explicit.
  set (i := k mod length buf).
  assert (Hl : length (firstn MARQUEE_WINDOW_CHARS (skipn i buf)) =
               Nat.min MARQUEE_WINDOW_CHARS (length buf - i))
    by (rewrite length_firstn, length_skipn; reflexivity).
  destruct (Nat.ltb_spec (i + j) (length buf)) as [H | H].
  - rewrite app_nth1 by (rewrite Hl; lia).
    rewrite nth_firstn. apply Nat.ltb_lt in Hj. rewrite Hj.
    apply nth_skipn.
  - rewrite app_nth2 by (rewrite Hl; lia). apply nth_repeat.
Qed.

(** C5: for a source text (the line after [strip]) longer than the window,
    [_start_marquee] shows its first 36 characters and sets the buffer to
    text + gap + text; once the start pause has fired, after [k] further
    ticks the display is the 36-character window of the buffer at offset
    [i = k mod len(buffer)]: the characters of the buffer from offset [i]
    on, at most 36 of them, then spaces up to 36 characters, so that its
    character [j] is the character [i + j] of the buffer where there is
    one and a space past the end of the buffer; [len(buffer)] ticks later
    the same window is shown again. *)
Theorem marquee_scroll_window_periodic :
  forall text s k,
    tracked s -> _stop s = false ->
    MARQUEE_WINDOW_CHARS < length (strip text) ->
    let t := strip text in
    let buf := t ++ MARQUEE_GAP ++ t in
    let display j :=
      now_playing_var
        (Nat.iter (S j) fire_marquee_timer (_start_marquee text s)) in
    now_playing_var (_start_marquee text s) = firstn MARQUEE_WINDOW_CHARS t /\
    _marquee_run (_start_marquee text s) = buf /\
    display k =
      ljust (slice buf (k mod length buf)
                   (k mod length buf + MARQUEE_WINDOW_CHARS))
            MARQUEE_WINDOW_CHARS /\
    length (display k) = MARQUEE_WINDOW_CHARS /\
    display (k + length buf) = display k /\
    k mod length buf < length buf /\
    display k =
      firstn MARQUEE_WINDOW_CHARS (skipn (k mod length buf) buf) ++
      repeat SPACE
        (MARQUEE_WINDOW_CHARS - (length buf - k mod length buf)) /\
    (forall j, j < MARQUEE_WINDOW_CHARS ->
               nth j (display k) SPACE =
               if k mod length buf + j <? length buf
               then nth (k mod length buf + j) buf SPACE
               else SPACE).
Proof.
  intros text s k Ht Hs Hlen t buf display.
  split; [rewrite (start_marquee_long text s Hlen); reflexivity|].
  split; [rewrite (start_marquee_long text s Hlen); reflexivity|].
  assert (Hd : forall j, display j = window buf j).
  { intros j. unfold display.
    destruct (scrolling_state text j Ht Hs Hlen) as (_ & _ & _ & H & _).
    exact H. }
  assert (Hn : length buf <> 0).
  { unfold buf, t. rewrite !length_app. lia. }
  rewrite !Hd. split; [reflexivity|]. split; [apply window_length|].
  split; [| split; [| split]].
  - unfold window. cbv zeta.
    replace ((k + length buf) mod length buf) with (k mod length buf);
      [reflexivity|].
    rewrite <- (Nat.mul_1_l (length buf)) at 2.
    symmetry. apply Nat.Div0.mod_add.
  - apply Nat.mod_upper_bound. exact Hn.
  - apply window_explicit.
  - intros j Hj. apply window_nth. exact Hj.
Qed.

(** C6: for a source text (the line after [strip]) of at most 36
    characters, 36 included, [_start_marquee] shows the whole text, holds
    no job, schedules nothing and leaves no marquee timer pending, so that
    no tick ever runs; the empty text gives the empty display.  A line
    written by the poller is its own stripped form, so it is shown as it
    is. *)
Theorem short_text_is_static :
  forall text s,
    tracked s ->
    length (strip text) <= MARQUEE_WINDOW_CHARS ->
    let s' := _start_marquee text s in
    now_playing_var s' = strip text /\
    _marquee_job s' = None /\ _marquee_pause_job s' = None /\
    next_id s' = next_id s /\
    marquee_timers s' = [] /\
    (forall n, Nat.iter n fire_marquee_timer s' = s') /\
    (text = [] -> now_playing_var s' = []) /\
    (forall r last,
        In (CbStartMarquee text) (snd (_update_loop_body r last)) ->
        now_playing_var s' = text).
Proof.
  intros text s Ht Hlen s'.
  destruct (cancel_jobs_fields s) as (Hj & Hq & Hn & _).
  assert (Hm : marquee_timers s' = []).
  { unfold s'. rewrite (start_marquee_timers text Ht).
    apply Nat.leb_le in Hlen. rewrite Hlen. reflexivity. }
  unfold s' in *. rewrite (start_marquee_fits text s Hlen) in *.
  repeat split; try assumption.
  - induction n as [|n IH]; [reflexivity|].
    change (Nat.iter (S n) fire_marquee_timer ?x)
      with (fire_marquee_timer (Nat.iter n fire_marquee_timer x)).
    rewrite IH. unfold fire_marquee_timer. rewrite Hm. reflexivity.
  - intros ->. reflexivity.
  - intros r last Hin. cbn [now_playing_var now_playing_var_set].
    exact (poller_line_stripped r last text Hin).
Qed.

(** C10: [_start_marquee] strips the incoming line before anything else;
    the test against the window, the display and the scroll buffer all use
    the stripped text.  When the stripped text fits, it is shown statically
    with no timer, also when the line itself is longer than the window (and
    then the display is not the line). *)
Theorem marquee_uses_stripped_line :
  forall text s,
    tracked s ->
    let t := strip text in
    let s' := _start_marquee text s in
    (length t <= MARQUEE_WINDOW_CHARS ->
     now_playing_var s' = t /\ marquee_timers s' = [] /\
     next_id s' = next_id s /\
     (MARQUEE_WINDOW_CHARS < length text -> now_playing_var s' <> text)) /\
    (MARQUEE_WINDOW_CHARS < length t ->
     now_playing_var s' = firstn MARQUEE_WINDOW_CHARS t /\
     _marquee_run s' = t ++ MARQUEE_GAP ++ t).
Proof.
  intros text s Ht t s'. subst t s'. split.
  - intros Hlen.
    destruct (cancel_jobs_fields s) as (_ & _ & Hn & _).
    assert (Hm : marquee_timers (_start_marquee text s) = []).
    { rewrite (start_marquee_timers text Ht).
      apply Nat.leb_le in Hlen. rewrite Hlen. reflexivity. }
    rewrite (start_marquee_fits text s Hlen) in *.
    repeat split; try assumption.
    intros Hlong E. cbn [now_playing_var now_playing_var_set] in E.
    rewrite E in Hlen. lia.
  - intros Hlen. rewrite (start_marquee_long text s Hlen).
    split; reflexivity.
Qed.

(** C9: a failure while the artwork is read (on opening the stream or on
    reading its bytes) does not fail the poll: the result is the one of
    the same session without thumbnail, with no artwork; and [_set_art]
    always returns: when decoding fails it clears the image of the label
    and the photo, and changes nothing else. *)
Theorem artwork_failures_stay_local :
  (forall p th,
      thumbnail p = Some th ->
      open_read_async th = Raise \/
      (exists st, open_read_async th = Ok st /\ read_bytes st = Raise) ->
      get_now_playing_and_art (session_with p) =
      get_now_playing_and_art
        (session_with {| title := title p; artist := artist p;
                         thumbnail := None |}) /\
      exists t a,
        get_now_playing_and_art (session_with p) = Ok (t, a, None) /\
        _update_loop [session_with p] = [update_of t None]) /\
  (forall img_bytes s,
      exists s',
        _set_art img_bytes s = Ok s' /\
        (forall b, img_bytes = Some b ->
                   decode_and_resize b ART_SIZE = Raise ->
                   s' = clear_art s /\
                   art_label_image s' = None /\ _photo s' = None /\
                   now_playing_var s' = now_playing_var s /\
                   pending s' = pending s)).
Proof.
  split.
  - intros p th Hth Hfail.
    unfold get_now_playing_and_art, session_with. cbn [bind
      get_current_session try_get_media_properties_async title artist
      thumbnail].
    rewrite Hth, (read_thumbnail_failure th Hfail). cbn [bind read_thumbnail].
    split; [reflexivity|]. eexists. eexists. split; [reflexivity|].
    unfold _update_loop, _update_loop_from, _update_loop_body,
      get_now_playing_and_art, session_with. cbn [bind
      get_current_session try_get_media_properties_async title artist
      thumbnail].
    rewrite Hth, (read_thumbnail_failure th Hfail). reflexivity.
  - intros [[|c b]|] s; simpl.
    + eexists. split; [reflexivity|]. intros b _ _. repeat split.
    + destruct (decode_and_resize (c :: b) ART_SIZE) as [img|] eqn:E; simpl.
      * eexists. split; [reflexivity|]. intros b' Hb Hd.
        injection Hb as <-. congruence.
      * eexists. split; [reflexivity|]. intros b' _ _. repeat split.
    + eexists. split; [reflexivity|]. intros b. discriminate.
Qed.

(** ** The poller's updates on the Tk side *)

Lemma write_pending : forall u s,
  pending (write u s) =
  pending s ++
  [{| tid := next_id s; delay := 0; callback_of := CbStartMarquee (fst u) |};
   {| tid := S (next_id s); delay := 0; callback_of := CbSetArt (snd u) |}].
Proof.
  intros u s. unfold write, post, payload. simpl.
  rewrite <- app_assoc. reflexivity.
Qed.

Lemma wf_write : forall u s, wf s -> wf (write u s).
Proof.
  intros u s W. unfold write, post, payload. cbn [fold_left].
  apply wf_after_update; [reflexivity|].
  apply wf_after_update; [reflexivity | exact W].
Qed.

Lemma channel_write : forall u s, channel (write u s) = channel s ++ payload u.
Proof.
  intros u s. unfold channel. rewrite write_pending, map_app, filter_app.
  reflexivity.
Qed.

Lemma due_write : forall u s,
  due (write u s) =
  due s ++
  [{| tid := next_id s; delay := 0; callback_of := CbStartMarquee (fst u) |};
   {| tid := S (next_id s); delay := 0; callback_of := CbSetArt (snd u) |}].
Proof.
  intros u s. unfold due. rewrite write_pending, filter_app. reflexivity.
Qed.

Lemma empty_channel_nothing_due : forall s,
  wf s -> channel s = [] -> due s = [].
Proof.
  intros s W Hc. apply nil_of_no_member. intros t Ht.
  apply filter_In in Ht. destruct Ht as [Hin Hd].
  pose proof (wf_delay W) as HD. rewrite Forall_forall in HD.
  pose proof (delay_ok_due_not_tick (HD t Hin) Hd) as Hnt.
  assert (Hx : In (callback_of t) (channel s)).
  { apply filter_In. split; [apply in_map; exact Hin|].
    rewrite Hnt. reflexivity. }
  rewrite Hc in Hx. exact Hx.
Qed.

Lemma nothing_due_only_marquee : forall s,
  wf s -> due s = [] -> pending s = marquee_timers s.
Proof.
  intros s W Hd. symmetry. apply filter_all. intros t Hin.
  pose proof (wf_delay W) as HD. rewrite Forall_forall in HD.
  specialize (HD t Hin). unfold delay_ok in HD.
  destruct (is_tick (callback_of t)); [reflexivity|].
  assert (Hx : In t (due s)) by (apply filter_In; tauto).
  rewrite Hd in Hx. destruct Hx.
Qed.

Lemma due_run_callback : forall cb s,
  wf s -> is_tick cb = false -> due (run_callback cb s) = due s.
Proof.
  intros [line | b |] s W Hcb; try discriminate.
  - apply start_marquee_due. exact W.
  - destruct (run_set_art b s) as [(Hp & _) _]. unfold due. rewrite Hp.
    reflexivity.
Qed.

(** One turn of the main loop runs the oldest due callback and takes it
    off the table. *)
Lemma process_due_fires_oldest : forall s t rest,
  wf s -> due s = t :: rest ->
  process_due s = fire t s /\ wf (fire t s) /\ due (fire t s) = rest /\
  In t (pending s) /\ is_tick (callback_of t) = false.
Proof.
  intros s t rest W Hd.
  assert (Ht : In t (due s)) by (rewrite Hd; left; reflexivity).
  apply filter_In in Ht. destruct Ht as [Hin Hz].
  pose proof (wf_delay W) as HD. rewrite Forall_forall in HD.
  pose proof (delay_ok_due_not_tick (HD t Hin) Hz) as Hnt.
  split; [| split; [| split; [| split]]]; try assumption.
  - unfold process_due. rewrite find_filter. fold (due s). rewrite Hd.
    reflexivity.
  - apply wf_fire; assumption.
  - unfold fire. rewrite due_run_callback;
      [| apply wf_after_cancel; exact W | exact Hnt].
    rewrite due_after_cancel, Hd. simpl. rewrite Nat.eqb_refl. simpl.
    apply filter_all. intros r Hr. apply negb_true_iff, Nat.eqb_neq.
    pose proof (NoDup_map_filter tid (fun t => delay t =? 0) (pending s)
                  (wf_nodup W)) as Hnd.
    fold (due s) in Hnd. rewrite Hd in Hnd. simpl in Hnd.
    inversion Hnd as [|? ? Hnotin _]; subst.
    intros E. apply Hnotin. rewrite <- E. apply in_map. exact Hr.
Qed.

(** The rendering side runs an update: the two callbacks of one write. *)
Lemma deliver_update : forall s a b rest line img,
  wf s -> due s = a :: b :: rest ->
  callback_of a = CbStartMarquee line -> callback_of b = CbSetArt img ->
  let s' := process_due (process_due s) in
  wf s' /\ due s' = rest /\
  now_playing_var s' = now_playing_var (_start_marquee line s) /\
  art_label_image s' =
    art_label_image (run_callback (CbSetArt img) s) /\
  map (fun t => (delay t, callback_of t)) (marquee_timers s') =
  if length (strip line) <=? MARQUEE_WINDOW_CHARS
  then []
  else [(MARQUEE_START_PAUSE_MS, CbTick)].
Proof.
  intros s a b rest line img W Hd Ha Hb.
  destruct (process_due_fires_oldest W Hd) as (E1 & W1 & D1 & Hina & _).
  cbv zeta. rewrite E1.
  destruct (process_due_fires_oldest W1 D1) as (E2 & W2 & D2 & Hinb & _).
  rewrite E2. split; [exact W2|]. split; [exact D2|].
  assert (Hbs : In b (pending s)).
  { assert (Hx : In b (due s)) by (rewrite Hd; right; left; reflexivity).
    apply filter_In in Hx. tauto. }
  pose proof (wf_fresh W b Hbs) as Hfresh.
  change (fire b (fire a s))
    with (run_callback (callback_of b) (after_cancel (tid b) (fire a s))).
  rewrite Hb.
  set (y := after_cancel (tid b) (fire a s)).
  destruct (run_set_art img y) as ((Hp & _) & Hnow & _ & _ & _ & Hart).
  destruct (run_set_art img s) as (_ & _ & _ & _ & _ & Hart').
  rewrite Hnow, Hart, Hart'. unfold marquee_timers at 1. rewrite Hp.
  fold (marquee_timers y). unfold y.
  rewrite marquee_timers_after_cancel.
  cbn [now_playing_var after_cancel]. unfold fire. rewrite Ha.
  cbn [run_callback]. rewrite !start_marquee_display.
  split; [reflexivity|]. split; [reflexivity|].
  rewrite (start_marquee_timers line
             (wf_tracked (wf_after_cancel (tid a) W))).
  destruct (length (strip line) <=? MARQUEE_WINDOW_CHARS); [reflexivity|].
  cbn [filter tid next_id after_cancel].
  replace (next_id s =? tid b) with false
    by (symmetry; apply Nat.eqb_neq; lia).
  reflexivity.
Qed.

(** C2, as the code has it: the updates wait in a first-in first-out
    queue: after two writes that were not taken, both payloads wait in the
    order written and none is dropped; the rendering side runs the first
    one first, so that the first line is displayed; once both have run,
    the line, the artwork and the timers are those that the second write
    alone gives. *)
Theorem updates_are_queued_last_one_stays :
  forall s u1 u2,
    wf s -> channel s = [] ->
    let s2 := write u2 (write u1 s) in
    channel s2 = payload u1 ++ payload u2 /\
    now_playing_var (process_due s2) =
      now_playing_var (_start_marquee (fst u1) s) /\
    shown (Nat.iter 4 process_due s2) =
      shown (Nat.iter 2 process_due (write u2 s)).
Proof.
  intros s u1 u2 W Hc s2. subst s2.
  pose proof (empty_channel_nothing_due W Hc) as Hd0.
  pose proof (wf_write u1 W) as W1.
  pose proof (wf_write u2 W1) as W2.
  pose proof (wf_write u2 W) as W2'.
  assert (D2 : due (write u2 (write u1 s)) =
               [{| tid := next_id s; delay := 0;
                   callback_of := CbStartMarquee (fst u1) |};
                {| tid := S (next_id s); delay := 0;
                   callback_of := CbSetArt (snd u1) |};
                {| tid := next_id (write u1 s); delay := 0;
                   callback_of := CbStartMarquee (fst u2) |};
                {| tid := S (next_id (write u1 s)); delay := 0;
                   callback_of := CbSetArt (snd u2) |}]).
  { rewrite !due_write, Hd0. reflexivity. }
  assert (D2' : due (write u2 s) =
                [{| tid := next_id s; delay := 0;
                    callback_of := CbStartMarquee (fst u2) |};
                 {| tid := S (next_id s); delay := 0;
                    callback_of := CbSetArt (snd u2) |}]).
  { rewrite due_write, Hd0. reflexivity. }
  split; [| split].
  - rewrite !channel_write, Hc. reflexivity.
  - destruct (process_due_fires_oldest W2 D2) as (E & _).
    rewrite E. unfold fire. cbn [callback_of run_callback].
    rewrite !start_marquee_display. reflexivity.
  - change (Nat.iter 4 process_due (write u2 (write u1 s)))
      with (process_due (process_due (process_due (process_due
              (write u2 (write u1 s)))))).
    change (Nat.iter 2 process_due (write u2 s))
      with (process_due (process_due (write u2 s))).
    destruct (deliver_update W2 D2 eq_refl eq_refl) as (Wy & Dy & _).
    set (y := process_due (process_due (write u2 (write u1 s)))) in *.
    destruct (deliver_update Wy Dy eq_refl eq_refl)
      as (Wy' & Dy' & Ny & Ay & My).
    destruct (deliver_update W2' D2' eq_refl eq_refl)
      as (Wz & Dz & Nz & Az & Mz).
    unfold shown.
    rewrite (nothing_due_only_marquee Wy' Dy').
    rewrite (nothing_due_only_marquee Wz Dz).
    rewrite Ny, Ay, My, Nz, Az, Mz, !start_marquee_display.
    destruct (run_set_art (snd u2) y) as (_ & _ & _ & _ & _ & ->).
    destruct (run_set_art (snd u2) (write u2 s)) as (_ & _ & _ & _ & _ & ->).
    reflexivity.
Qed.

(** * Further properties of the code *)

(** ** More on [strip] *)

Lemma lstrip_suffix : forall s, exists sp, s = sp ++ lstrip s.
Proof.
  induction s as [|c s [sp IH]]; [exists []; reflexivity|]. simpl.
  destruct (isspace c).
  - exists (c :: sp). simpl. f_equal. exact IH.
  - exists []. reflexivity.
Qed.

Lemma lstrip_head : forall s c r, lstrip s = c :: r -> isspace c = false.
Proof.
  induction s as [|x s IH]; intros c r H; simpl in H; [discriminate|].
  destruct (isspace x) eqn:E; [exact (IH c r H)|].
  injection H as <- _. exact E.
Qed.

Lemma lstrip_of_clean_head : forall c r,
  isspace c = false -> lstrip (c :: r) = c :: r.
Proof. intros c r H. simpl. rewrite H. reflexivity. Qed.

Lemma strip_idempotent : forall s, strip (strip s) = strip s.
Proof.
  intros s. unfold strip at 1. unfold rstrip.
  assert (Hl : lstrip (strip s) = strip s).
  { unfold strip, rstrip.
    destruct (lstrip_suffix (rev (lstrip s))) as [sp Hsp].
    assert (Hm : lstrip s = rev (lstrip (rev (lstrip s))) ++ rev sp).
    { rewrite <- rev_app_distr, <- Hsp, rev_involutive. reflexivity. }
    destruct (rev (lstrip (rev (lstrip s)))) as [|c y] eqn:Ey;
      [reflexivity|].
    apply lstrip_of_clean_head. simpl in Hm.
    exact (lstrip_head s Hm). }
  rewrite Hl, rev_strip, lstrip_idempotent, <- rev_strip.
  apply rev_involutive.
Qed.

(** ** More on the provider adapter *)

Lemma read_thumbnail_some : forall thumb b,
  read_thumbnail thumb = Ok (Some b) <->
  exists th st, thumb = Some th /\ open_read_async th = Ok st /\
                (0 < size st)%Z /\ read_bytes st = Ok b.
Proof.
  intros [[[[sz [buf|]]|]]|] b; simpl; split;
    try discriminate;
    try (intros (th & st & H & _); discriminate H);
    try (intros (th & st & H1 & H2 & _); injection H1 as <-;
         simpl in H2; discriminate H2).
  - destruct (0 <? sz)%Z eqn:E; simpl; [|discriminate].
    intros H. injection H as <-. apply Z.ltb_lt in E.
    eexists. eexists. repeat split. exact E.
  - intros (th & st & H1 & H2 & H3 & H4). injection H1 as <-.
    simpl in H2. injection H2 as <-. simpl in *.
    apply Z.ltb_lt in H3. rewrite H3. simpl. congruence.
  - destruct (0 <? sz)%Z; simpl; discriminate.
  - intros (th & st & H1 & H2 & H3 & H4). injection H1 as <-.
    simpl in H2. injection H2 as <-. simpl in H4. discriminate H4.
Qed.

(** X2: the title and the artist a poll returns are their own stripped
    forms, and they are never both empty. *)
Theorem poll_result_normalized :
  forall r t a img,
    get_now_playing_and_art r = Ok (t, a, img) ->
    strip t = t /\ strip a = a /\ (t <> [] \/ a <> []).
Proof.
  intros [[[[[p|]]|]]|] t a img H; simpl in H; try discriminate.
  - destruct (read_thumbnail (thumbnail p)) as [o|]; simpl in H;
      [| discriminate].
    destruct (strip (or_empty (title p))) as [|c t'] eqn:Et; simpl in H.
    + destruct (strip (or_empty (artist p))) as [|d a'] eqn:Ea; simpl in H;
        injection H as <- <- _.
      * repeat split; try reflexivity. left. discriminate.
      * rewrite <- Ea. split; [reflexivity|].
        split; [apply strip_idempotent|]. right. rewrite Ea. discriminate.
    + injection H as <- <- _. rewrite <- Et.
      split; [apply strip_idempotent|].
      split; [apply strip_idempotent|]. left. rewrite Et. discriminate.
  - injection H as <- <- _. repeat split; try reflexivity.
    left. discriminate.
Qed.

(** X3: a poll returns artwork bytes exactly when the session has a
    thumbnail whose stream opens, has a positive size and is read without
    error; the bytes are the ones read.  A stream of size 0 gives no
    artwork. *)
Theorem poll_artwork_iff :
  forall p b,
    (exists t a, get_now_playing_and_art (session_with p) =
                 Ok (t, a, Some b)) <->
    exists th st, thumbnail p = Some th /\ open_read_async th = Ok st /\
                  (0 < size st)%Z /\ read_bytes st = Ok b.
Proof.
  intros p b. rewrite <- read_thumbnail_some.
  unfold get_now_playing_and_art, session_with. cbn [bind
    get_current_session try_get_media_properties_async].
  destruct (read_thumbnail_returns (thumbnail p)) as [img E].
  rewrite E. cbn [bind]. split.
  - intros (t & a & H). injection H as _ _ <-. reflexivity.
  - intros H. injection H as ->. eexists. eexists. reflexivity.
Qed.

(** ** More on the update loop *)

(** X4: what one iteration schedules is either nothing, or the display
    line followed by the artwork and nothing else; the line is the note
    glyph, a space and a text that is not empty, and stripping it changes
    nothing. *)
Theorem poller_writes_line_then_art :
  forall r last,
    snd (_update_loop_body r last) = [] \/
    exists text img,
      snd (_update_loop_body r last) =
        [CbStartMarquee ([NOTE; SPACE] ++ text); CbSetArt img] /\
      text <> [] /\
      strip ([NOTE; SPACE] ++ text) = [NOTE; SPACE] ++ text.
Proof.
  intros r last.
  assert (Hs : forall line,
             In (CbStartMarquee line) (snd (_update_loop_body r last)) ->
             strip line = line)
    by (intros line; apply poller_line_stripped).
  unfold _update_loop_body in *.
  destruct (get_now_playing_and_art r) as [[[t a] img]|].
  - destruct (differs (t, a) last); [| left; reflexivity]. right.
    cbn [snd] in *. unfold display_line in *. destruct t as [|c t].
    + exists (lit "(unknown)"), img. split; [reflexivity|].
      split; [discriminate|]. apply Hs. left. reflexivity.
    + exists (c :: t), img. split; [reflexivity|].
      split; [discriminate|]. apply Hs. left. reflexivity.
  - right. exists (lit "(unable to read media session)"), None.
    split; [reflexivity|]. split; [discriminate|]. vm_compute. reflexivity.
Qed.

Lemma pair_of_success : forall r t a img,
  get_now_playing_and_art r = Ok (t, a, img) -> pair_of r = Some (t, a).
Proof. intros r t a img H. unfold pair_of. rewrite H. reflexivity. Qed.

Lemma pair_of_failure : forall r,
  get_now_playing_and_art r = Raise -> pair_of r = None.
Proof. intros r H. unfold pair_of. rewrite H. reflexivity. Qed.

Lemma last_after_most_recent : forall polls,
  last_after None polls = most_recent_success polls.
Proof.
  induction polls as [|r polls IH] using rev_ind; [reflexivity|].
  unfold last_after in *. rewrite fold_left_app. cbn [fold_left].
  rewrite IH. unfold most_recent_success. rewrite rev_app_distr.
  cbn [rev app find].
  destruct (get_now_playing_and_art r) as [[[t a] img]|] eqn:E.
  - pose proof (pair_of_success r E) as P.
    rewrite (body_success_last r _ E), P. cbv beta iota. rewrite P.
    reflexivity.
  - rewrite (body_failure r _ E), (pair_of_failure r E). reflexivity.
Qed.

(** X5: whatever the polls were, failures included, [last] is the pair of
    the latest successful poll ([None] before the first one): a failing
    iteration writes the error line, and a successful one writes its line
    exactly when its pair differs from the pair of the latest successful
    poll before it. *)
Theorem loop_compares_with_latest_success :
  forall polls k r,
    nth_error polls k = Some r ->
    last_after None (firstn k polls) = most_recent_success (firstn k polls) /\
    nth k (_update_loop polls) [] =
    match get_now_playing_and_art r with
    | Ok (t, a, img) =>
        if differs (t, a) (most_recent_success (firstn k polls))
        then update_of t img
        else []
    | Raise => error_update
    end.
Proof.
  intros polls k r Hk. split; [apply last_after_most_recent|].
  unfold _update_loop. rewrite (loop_emitted polls None k Hk).
  rewrite last_after_most_recent.
  destruct (get_now_playing_and_art r) as [[[t a] img]|] eqn:E.
  - apply body_success_calls. exact E.
  - rewrite (body_failure r _ E). reflexivity.
Qed.

(** ** More on the application object *)

Lemma destroy_fields : forall s,
  _stop (destroy s) = true /\
  now_playing_var (destroy s) = now_playing_var s /\
  art_label_image (destroy s) = art_label_image s /\
  _photo (destroy s) = _photo s /\
  _marquee_run (destroy s) = _marquee_run s /\
  _marquee_i (destroy s) = _marquee_i s.
Proof.
  intros s. unfold destroy. cbn [_marquee_job set_stop].
  destruct (_marquee_job s); cbn [_marquee_pause_job set_stop after_cancel];
    destruct (_marquee_pause_job s); repeat split.
Qed.

Lemma in_destroy : forall s t,
  In t (pending (destroy s)) -> In t (pending s) /\ ~ held s (tid t).
Proof.
  intros s t. unfold destroy, held. cbn [_marquee_job set_stop].
  destruct (_marquee_job s) as [j|];
    cbn [_marquee_pause_job set_stop after_cancel];
    destruct (_marquee_pause_job s) as [q|]; intros H;
    repeat (apply in_after_cancel in H; destruct H as [H ?]);
    cbn [pending set_stop] in H; (split; [exact H|]);
    intros [E | E]; congruence.
Qed.

Lemma tick_marquee_art : forall s,
  art_label_image (_tick_marquee s) = art_label_image s /\
  _photo (_tick_marquee s) = _photo s.
Proof.
  intros s. destruct (tick_marquee_cases s) as [-> | (_ & _ & ->)];
    split; reflexivity.
Qed.

Lemma run_callback_display_bound : forall cb s,
  length (now_playing_var s) <= MARQUEE_WINDOW_CHARS ->
  length (now_playing_var (run_callback cb s)) <= MARQUEE_WINDOW_CHARS.
Proof.
  intros [line | b |] s H.
  - cbn [run_callback]. rewrite start_marquee_display.
    destruct (Nat.leb_spec (length (strip line)) MARQUEE_WINDOW_CHARS)
      as [L | L]; [exact L|].
    rewrite length_firstn. lia.
  - destruct (run_set_art b s) as (_ & -> & _). exact H.
  - cbn [run_callback].
    destruct (tick_marquee_cases s) as [-> | (_ & _ & ->)]; [exact H|].
    cbn [now_playing_var set_marquee_job after snd set_marquee_i
         now_playing_var_set]. rewrite window_length. lia.
Qed.

(** X6: in every state the application can reach, the text of the title
    label has at most 36 characters. *)
Theorem display_never_wider_than_window :
  forall s, reachable s ->
            length (now_playing_var s) <= MARQUEE_WINDOW_CHARS.
Proof.
  induction 1 as [| s s' _ IH Hstep].
  - vm_compute. lia.
  - destruct Hstep as [x cb Hcb | x t Hin | x].
    + exact IH.
    + unfold fire. apply run_callback_display_bound. exact IH.
    + destruct (destroy_fields x) as (_ & -> & _). exact IH.
Qed.

Lemma run_callback_art_in_step : forall cb s,
  art_label_image s = _photo s ->
  art_label_image (run_callback cb s) = _photo (run_callback cb s).
Proof.
  intros [line | b |] s H; cbn [run_callback].
  - destruct (start_marquee_art line s) as (-> & -> & _). exact H.
  - destruct (set_art_returns b s) as (s' & -> & _ & _ & _ & _ & _ & E & _).
    exact E.
  - destruct (tick_marquee_art s) as (-> & ->). exact H.
Qed.

(** X7: in every state the application can reach, the image shown by the
    artwork label is the one kept in [_photo]: the photo on display is
    always referenced, and no photo is kept that is not displayed. *)
Theorem label_image_is_kept_photo :
  forall s, reachable s -> art_label_image s = _photo s.
Proof.
  induction 1 as [| s s' _ IH Hstep]; [reflexivity|].
  destruct Hstep as [x cb Hcb | x t Hin | x].
  - exact IH.
  - unfold fire. apply run_callback_art_in_step. exact IH.
  - destruct (destroy_fields x) as (_ & _ & -> & -> & _). exact IH.
Qed.

(** X10: [destroy] sets the stop flag and leaves no marquee timer
    pending, without touching the display; a tick that still runs
    afterwards returns at once, so the display is not written again and no
    timer is armed. *)
Theorem destroy_stops_marquee :
  forall s, reachable s ->
    _stop (destroy s) = true /\
    marquee_timers (destroy s) = [] /\
    now_playing_var (destroy s) = now_playing_var s /\
    _tick_marquee (destroy s) = destroy s /\
    (forall t, callback_of t = CbTick ->
               fire t (destroy s) = after_cancel (tid t) (destroy s)) /\
    (forall n, Nat.iter n fire_marquee_timer (destroy s) = destroy s).
Proof.
  intros s Hr. pose proof (reachable_wf Hr) as W.
  destruct (destroy_fields s) as (Hs & Hn & _).
  assert (Hm : marquee_timers (destroy s) = []).
  { apply nil_of_no_member. intros t Ht. apply filter_In in Ht.
    destruct Ht as [Hin Htick]. apply in_destroy in Hin.
    destruct Hin as [Hin Hh]. apply Hh.
    apply (wf_tracked W); assumption. }
  split; [exact Hs|]. split; [exact Hm|]. split; [exact Hn|].
  split; [| split].
  - apply tick_marquee_idle. rewrite Hs. reflexivity.
  - intros t Ht. unfold fire. rewrite Ht. cbn [run_callback].
    apply tick_marquee_idle. cbn [_stop after_cancel]. rewrite Hs.
    reflexivity.
  - induction n as [|n IH]; [reflexivity|].
    change (Nat.iter (S n) fire_marquee_timer ?x)
      with (fire_marquee_timer (Nat.iter n fire_marquee_timer x)).
    rewrite IH. unfold fire_marquee_timer. rewrite Hm. reflexivity.
Qed.

(** ** From a poll to the panel *)

(** The rendering side runs the two callbacks of one update of the
    poller. *)
Lemma rendered_update : forall s line img,
  wf s -> channel s = [] -> strip line = line ->
  let s' := Nat.iter 2 process_due
              (post [CbStartMarquee line; CbSetArt img] s) in
  now_playing_var s' =
    (if length line <=? MARQUEE_WINDOW_CHARS
     then line else firstn MARQUEE_WINDOW_CHARS line) /\
  map (fun t => (delay t, callback_of t)) (pending s') =
    (if length line <=? MARQUEE_WINDOW_CHARS
     then [] else [(MARQUEE_START_PAUSE_MS, CbTick)]) /\
  art_label_image s' =
    match img with
    | Some (c :: b) =>
        match decode_and_resize (c :: b) ART_SIZE with
        | Ok i => Some i
        | Raise => None
        end
    | _ => None
    end.
Proof.
  intros s line img W Hc Hs.
  change (post [CbStartMarquee line; CbSetArt img] s)
    with (write (line, img) s).
  change (Nat.iter 2 process_due (write (line, img) s))
    with (process_due (process_due (write (line, img) s))).
  pose proof (empty_channel_nothing_due W Hc) as Hd0.
  assert (D : due (write (line, img) s) =
              [{| tid := next_id s; delay := 0;
                  callback_of := CbStartMarquee line |};
               {| tid := S (next_id s); delay := 0;
                  callback_of := CbSetArt img |}]).
  { rewrite due_write, Hd0. reflexivity. }
  destruct (deliver_update (wf_write (line, img) W) D eq_refl eq_refl)
    as (W' & D' & N & A & M).
  cbv zeta. rewrite (nothing_due_only_marquee W' D'), N, A, M.
  rewrite start_marquee_display, Hs.
  destruct (run_set_art img (write (line, img) s)) as (_ & _ & _ & _ & _ & ->).
  repeat split.
Qed.

(** X8: when a successful poll with a changed pair is written to a panel
    with nothing else waiting, and the rendering side runs the two
    callbacks, the label shows the line of the title, whole if it has at
    most 36 characters and cut to its first 36 otherwise; the only timer
    left is the start pause of the marquee, and only in the second case;
    the image is the decoded artwork, or none when the artwork is absent,
    empty or does not decode. *)
Theorem changed_poll_is_rendered :
  forall s r last t a img,
    wf s -> channel s = [] ->
    get_now_playing_and_art r = Ok (t, a, img) ->
    last <> Some (t, a) ->
    let s' := Nat.iter 2 process_due
                (post (snd (_update_loop_body r last)) s) in
    now_playing_var s' =
      (if length (display_line t) <=? MARQUEE_WINDOW_CHARS
       then display_line t
       else firstn MARQUEE_WINDOW_CHARS (display_line t)) /\
    map (fun t => (delay t, callback_of t)) (pending s') =
      (if length (display_line t) <=? MARQUEE_WINDOW_CHARS
       then [] else [(MARQUEE_START_PAUSE_MS, CbTick)]) /\
    art_label_image s' =
      match img with
      | Some (c :: b) =>
          match decode_and_resize (c :: b) ART_SIZE with
          | Ok i => Some i
          | Raise => None
          end
      | _ => None
      end.
Proof.
  intros s r last t a img W Hc Hg Hne.
  assert (Hcalls : snd (_update_loop_body r last) = update_of t img).
  { rewrite (body_success_calls r last Hg).
    apply differs_true in Hne. rewrite Hne. reflexivity. }
  rewrite Hcalls. apply rendered_update; [exact W | exact Hc |].
  apply (poller_line_stripped r last). rewrite Hcalls. left. reflexivity.
Qed.

(** X9: when a failing poll is written to a panel with nothing else
    waiting, and the rendering side runs the two callbacks, the label
    shows the whole error line, the image is cleared and no timer is left:
    the error line is static. *)
Theorem failed_poll_is_rendered :
  forall s r last,
    wf s -> channel s = [] ->
    get_now_playing_and_art r = Raise ->
    let s' := Nat.iter 2 process_due
                (post (snd (_update_loop_body r last)) s) in
    now_playing_var s' = ERROR_LINE /\
    pending s' = [] /\
    art_label_image s' = None.
Proof.
  intros s r last W Hc Hg. rewrite (body_failure r last Hg).
  change (snd (last, error_update))
    with [CbStartMarquee ERROR_LINE; CbSetArt None].
  destruct (@rendered_update s ERROR_LINE None W Hc
              ltac:(vm_compute; reflexivity)) as (N & P & A).
  cbv zeta. rewrite N, A. split; [reflexivity|]. split; [|reflexivity].
  change (length ERROR_LINE <=? MARQUEE_WINDOW_CHARS) with true in P.
  cbv iota in P. apply map_eq_nil in P. exact P.
Qed.

(** ** More on the scrolling window *)

Lemma window_unpadded : forall buf k,
  k mod length buf + MARQUEE_WINDOW_CHARS <= length buf ->
  window buf k = firstn MARQUEE_WINDOW_CHARS (skipn (k mod length buf) buf).
Proof.
  intros buf k H. unfold window, ljust, slice. cbv zeta.
  replace (k mod length buf + MARQUEE_WINDOW_CHARS - k mod length buf)
    with MARQUEE_WINDOW_CHARS by lia.
  rewrite length_firstn, length_skipn.
  replace (MARQUEE_WINDOW_CHARS -
           Nat.min MARQUEE_WINDOW_CHARS (length buf - k mod length buf))
    with 0 by lia.
  apply app_nil_r.
Qed.

Lemma window_padded : forall buf k,
  buf <> [] ->
  length buf < k mod length buf + MARQUEE_WINDOW_CHARS ->
  window buf k =
  skipn (k mod length buf) buf ++
  repeat SPACE (k mod length buf + MARQUEE_WINDOW_CHARS - length buf).
Proof.
  intros buf k Hne H.
  assert (Hn : length buf <> 0) by (destruct buf; [contradiction | discriminate]).
  pose proof (Nat.mod_upper_bound k (length buf) Hn) as Hi.
  unfold window, ljust, slice. cbv zeta.
  replace (k mod length buf + MARQUEE_WINDOW_CHARS - k mod length buf)
    with MARQUEE_WINDOW_CHARS by lia.
  rewrite firstn_all2 by (rewrite length_skipn; lia).
  rewrite length_skipn. f_equal. f_equal. lia.
Qed.

(** X11: when the start pause fires, the display stays what
    [_start_marquee] set, the first 36 characters of the text; the text
    moves one tick later. *)
Theorem start_pause_firing_keeps_display :
  forall text s,
    tracked s -> _stop s = false ->
    MARQUEE_WINDOW_CHARS < length (strip text) ->
    now_playing_var (fire_marquee_timer (_start_marquee text s)) =
    now_playing_var (_start_marquee text s) /\
    _marquee_i (fire_marquee_timer (_start_marquee text s)) = 1.
Proof.
  intros text s Ht Hs Hlen.
  destruct (scrolling_state text 0 Ht Hs Hlen) as (_ & _ & Hi & Hd & _).
  change (Nat.iter 1 fire_marquee_timer (_start_marquee text s))
    with (fire_marquee_timer (_start_marquee text s)) in *.
  split; [| exact Hi]. rewrite Hd.
  rewrite (start_marquee_long text s Hlen).
  cbn [now_playing_var set_marquee_pause_job after snd set_marquee_i
       set_marquee_run now_playing_var_set].
  rewrite window_unpadded.
  - rewrite Nat.Div0.mod_0_l. cbn [skipn].
    rewrite firstn_app.
    replace (MARQUEE_WINDOW_CHARS - length (strip text)) with 0 by lia.
    cbn [firstn]. apply app_nil_r.
  - rewrite Nat.Div0.mod_0_l, !length_app. lia.
Qed.

(** X12: through the first pass over the text and the gap (tick [k] up to
    [len(text) + len(gap)]) the display is a whole 36-character piece of
    the buffer starting at offset [k], with no padding. *)
Theorem first_pass_is_unpadded :
  forall text s k,
    tracked s -> _stop s = false ->
    MARQUEE_WINDOW_CHARS < length (strip text) ->
    k <= length (strip text) + length MARQUEE_GAP ->
    let buf := strip text ++ MARQUEE_GAP ++ strip text in
    let shown_at_k :=
      now_playing_var
        (Nat.iter (S k) fire_marquee_timer (_start_marquee text s)) in
    shown_at_k = firstn MARQUEE_WINDOW_CHARS (skipn k buf) /\
    length (skipn k buf) >= MARQUEE_WINDOW_CHARS.
Proof.
  intros text s k Ht Hs Hlen Hk buf shown_at_k.
  destruct (scrolling_state text k Ht Hs Hlen) as (_ & _ & _ & Hd & _).
  unfold shown_at_k. rewrite Hd. fold buf.
  assert (Hn : length buf = 2 * length (strip text) + length MARQUEE_GAP).
  { unfold buf. rewrite !length_app. lia. }
  assert (Hmod : k mod length buf = k) by (apply Nat.mod_small; lia).
  split.
  - rewrite window_unpadded; rewrite Hmod; [reflexivity | lia].
  - rewrite length_skipn. lia.
Qed.

(** X13: near the end of the buffer the window does not wrap around: at
    an offset [i = k mod len(buffer)] with fewer than 36 characters left,
    the display is the rest of the buffer followed by
    [i + 36 - len(buffer)] spaces. *)
Theorem buffer_end_is_padded :
  forall text s k,
    tracked s -> _stop s = false ->
    MARQUEE_WINDOW_CHARS < length (strip text) ->
    let buf := strip text ++ MARQUEE_GAP ++ strip text in
    let i := k mod length buf in
    length buf < i + MARQUEE_WINDOW_CHARS ->
    now_playing_var
      (Nat.iter (S k) fire_marquee_timer (_start_marquee text s)) =
    skipn i buf ++ repeat SPACE (i + MARQUEE_WINDOW_CHARS - length buf).
Proof.
  intros text s k Ht Hs Hlen buf i Hi.
  destruct (scrolling_state text k Ht Hs Hlen) as (_ & _ & _ & Hd & _).
  rewrite Hd. fold buf. apply window_padded; [| exact Hi].
  unfold buf. destruct (strip text); [simpl in Hlen; lia | discriminate].
Qed.

(** ** Media keys *)

Lemma keys_down_app : forall l l' down,
  keys_down (l ++ l') down = keys_down l' (keys_down l down).
Proof.
  induction l as [|e l IH]; intros l' down; [reflexivity|].
  simpl. apply IH.
Qed.

Lemma press_vk_releases : forall vk sent,
  keys_down sent [] = [] -> keys_down (press_vk vk sent) [] = [].
Proof.
  intros vk sent H. unfold press_vk. rewrite keys_down_app, H.
  cbn [keys_down bVk].
  change (is_keyup {| bVk := vk; bScan := 0; dwFlags := 0;
                      dwExtraInfo := 0 |}) with false.
  change (is_keyup {| bVk := vk; bScan := 0; dwFlags := KEYEVENTF_KEYUP;
                      dwExtraInfo := 0 |}) with true.
  cbn [remove]. destruct (Z.eq_dec vk vk); [reflexivity | contradiction].
Qed.

(** X14: whatever buttons are clicked and in whatever order, every click
    adds two [keybd_event] calls with the virtual key of that button, scan
    code 0 and extra information 0: first one with flags 0 (key down),
    then one with flags [KEYEVENTF_KEYUP] = 2 (key up).  Starting with no
    key down, that key alone is down between the two calls and no key is
    down after them.  The keys are 0xB1, 0xB3, 0xB0 (previous, play/pause,
    next) and 0xAE, 0xAD, 0xAF (volume down, mute, volume up), in the grid
    cells of the first and second row; no two buttons share a key or a
    cell. *)
Theorem clicks_leave_no_key_down :
  forall (bs : list button) (sent : list keybd_event),
    keys_down sent [] = [] ->
    fold_left click bs sent =
      sent ++
      flat_map
        (fun b =>
           [{| bVk := button_vk b; bScan := 0; dwFlags := 0;
               dwExtraInfo := 0 |};
            {| bVk := button_vk b; bScan := 0; dwFlags := 2;
               dwExtraInfo := 0 |}]) bs /\
    (forall b,
        keys_down
          (sent ++ [{| bVk := button_vk b; bScan := 0; dwFlags := 0;
                       dwExtraInfo := 0 |}]) [] = [button_vk b] /\
        keys_down (click sent b) [] = []) /\
    keys_down (fold_left click bs sent) [] = [] /\
    length (fold_left click bs sent) = length sent + 2 * length bs /\
    map button_vk [BtnPrev; BtnPlayPause; BtnNext;
                   BtnVolumeDown; BtnMute; BtnVolumeUp] =
      [177; 179; 176; 174; 173; 175]%Z /\
    map button_cell [BtnPrev; BtnPlayPause; BtnNext;
                     BtnVolumeDown; BtnMute; BtnVolumeUp] =
      [(0, 0); (1, 0); (2, 0); (0, 1); (1, 1); (2, 1)] /\
    (forall b b', button_vk b = button_vk b' -> b = b') /\
    (forall b b', button_cell b = button_cell b' -> b = b').
Proof.
  intros bs sent H.
  split; [| split; [| split; [| split; [| split; [| split; [| split]]]]]].
  - clear H. revert sent. induction bs as [|b bs IH]; intros sent.
    + cbn [fold_left flat_map]. symmetry. apply app_nil_r.
    + cbn [fold_left flat_map]. rewrite IH. unfold click, press_vk.
      rewrite <- app_assoc. reflexivity.
  - intros b. split.
    + rewrite keys_down_app, H. reflexivity.
    + unfold click. apply press_vk_releases. exact H.
  - revert sent H. induction bs as [|b bs IH]; intros sent H; [exact H|].
    cbn [fold_left]. apply IH. unfold click. apply press_vk_releases.
    exact H.
  - clear H. revert sent. induction bs as [|b bs IH]; intros sent;
      cbn [fold_left length]; [lia|].
    rewrite IH. unfold click, press_vk. rewrite length_app. simpl. lia.
  - reflexivity.
  - reflexivity.
  - intros [] []; intros E; try reflexivity; discriminate E.
  - intros [] []; intros E; try reflexivity; discriminate E.
Qed.

(** ** Waiting updates are not lost *)

Lemma filter_map_filter : forall (A B : Type) (p : B -> bool) (g : A -> B)
                                 (f : A -> bool) (l : list A),
  (forall x, In x l -> p (g x) = true -> f x = true) ->
  filter p (map g (filter f l)) = filter p (map g l).
Proof.
  induction l as [|x l IH]; intros H; [reflexivity|]. cbn [filter map].
  assert (IH' : filter p (map g (filter f l)) = filter p (map g l)).
  { apply IH. intros y Hy. apply H. right. exact Hy. }
  destruct (f x) eqn:Ef; cbn [filter map]; rewrite IH'; [reflexivity|].
  destruct (p (g x)) eqn:Ep; [| reflexivity].
  rewrite (H x (or_introl eq_refl) Ep) in Ef. discriminate Ef.
Qed.

Lemma cancel_jobs_channel : forall s, wf s -> channel (cancel_jobs s) = channel s.
Proof.
  intros s W. destruct (cancel_jobs_pending s) as [f [Hp Hf]].
  unfold channel. rewrite Hp. apply filter_map_filter.
  intros t Hin Hnt. apply Hf. intros Hh.
  apply (wf_held W) in Hh; [| exact Hin].
  rewrite Hh in Hnt. discriminate Hnt.
Qed.

(** X15: in every state the application can reach, running a callback
    ([_start_marquee], [_set_art] or [_tick_marquee]) leaves the updates
    of the poller that wait to be run as they are, in the same order: the
    jobs that [_start_marquee] cancels are never updates. *)
Theorem callbacks_keep_waiting_updates :
  forall s cb, reachable s -> channel (run_callback cb s) = channel s.
Proof.
  intros s cb Hr. pose proof (reachable_wf Hr) as W.
  destruct cb as [line | b |]; cbn [run_callback].
  - unfold channel at 1. rewrite start_marquee_pending, map_app, filter_app.
    fold (channel (cancel_jobs s)). rewrite (cancel_jobs_channel W).
    destruct (length (strip line) <=? MARQUEE_WINDOW_CHARS);
      apply app_nil_r.
  - destruct (set_art_returns b s) as (s' & -> & (Hp & _) & _).
    unfold channel. rewrite Hp. reflexivity.
  - destruct (tick_marquee_cases s) as [-> | (_ & _ & ->)]; [reflexivity|].
    unfold channel. cbn [pending set_marquee_job after snd set_marquee_i
                         now_playing_var_set].
    rewrite map_app, filter_app. apply app_nil_r.
Qed.

End App.

(** * Instances *)

Lemma update_emitted_iff_pair_changed_witness :
  nth 1 (_update_loop [playing "Song" "Band"; playing "Song" "Band";
                       playing "Other" "Band"]) [] = [] /\
  nth 2 (_update_loop [playing "Song" "Band"; playing "Song" "Band";
                       playing "Other" "Band"]) [] =
  update_of (lit "Other") None.
Proof.
  assert (Hall : Forall succeeds
                   [playing "Song" "Band"; playing "Song" "Band";
                    playing "Other" "Band"]).
  { repeat (apply Forall_cons; [eexists; reflexivity|]). apply Forall_nil. }
  split.
  - apply (proj2 (@update_emitted_iff_pair_changed _ 1 _ _ _ _
                    Hall eq_refl eq_refl)).
    intros [H | [r' [Hn Hne]]]; [discriminate|].
    injection Hn as <-. apply Hne. reflexivity.
  - apply (proj1 (@update_emitted_iff_pair_changed _ 2 _ _ _ _
                    Hall eq_refl eq_refl)).
    right. eexists. split; [reflexivity|]. discriminate.
Defined.

Lemma poller_writes_witness :
  nth 1 (_update_loop_from None [failing; failing]) [] = error_update /\
  nth 1 (_update_loop_from None [playing "Song" "Band";
                                 playing "Song" "Band"]) [] = [].
Proof.
  split.
  - exact (proj1 (@poller_writes [failing; failing] None 1 _ eq_refl)
                 eq_refl).
  - refine (proj2 (proj2 (@poller_writes
                            [playing "Song" "Band"; playing "Song" "Band"]
                            None 1 _ eq_refl)
                     (lit "Song") (lit "Band") None eq_refl)
              (playing "Song" "Band") None _ eq_refl eq_refl).
    lia.
Defined.

Lemma normalization_placeholders_witness :
  exists img,
    get_now_playing_and_art
      (session_with {| title := Some [SPACE; SPACE]; artist := None;
                       thumbnail := None |}) =
    Ok (lit "Playing (no metadata)", [], img).
Proof.
  apply (proj1 normalization_placeholders); reflexivity.
Defined.

Lemma artwork_failures_stay_local_witness :
  get_now_playing_and_art
    (session_with {| title := Some (lit "Song"); artist := Some (lit "Band");
                     thumbnail := Some {| open_read_async := Raise |} |}) =
  Ok (lit "Song", lit "Band", None) /\
  exists s', _set_art no_codec (Some [Byte.x00]) (init unit) = Ok s' /\
             art_label_image s' = None.
Proof.
  destruct (artwork_failures_stay_local no_codec) as [H1 H2]. split.
  - destruct (H1 {| title := Some (lit "Song"); artist := Some (lit "Band");
                    thumbnail := Some {| open_read_async := Raise |} |}
                 {| open_read_async := Raise |} eq_refl
                 (or_introl eq_refl)) as [E _].
    rewrite E. reflexivity.
  - destruct (H2 (Some [Byte.x00]) (init unit)) as [s' [E H]].
    exists s'. split; [exact E|].
    exact (proj1 (proj2 (H [Byte.x00] eq_refl eq_refl))).
Defined.

(** C2, the single-slot reading fails: two writes that were not taken
    leave four callbacks waiting, not the two of the second write, and the
    first turn of the main loop displays the first line. *)
Lemma single_slot_refuted :
  ~ single_slot unit /\
  channel (write (short_line, None) (write (long_line, None) (init unit))) =
  [CbStartMarquee long_line; CbSetArt None;
   CbStartMarquee short_line; CbSetArt None] /\
  now_playing_var
    (process_due no_codec
       (write (short_line, None) (write (long_line, None) (init unit)))) =
  firstn MARQUEE_WINDOW_CHARS long_line.
Proof.
  split; [| split; vm_compute; reflexivity].
  intros H.
  specialize (H (init unit) (long_line, None) (short_line, None) eq_refl).
  vm_compute in H. discriminate H.
Qed.

Lemma updates_are_queued_last_one_stays_witness :
  channel (write (short_line, None) (write (long_line, None) (init unit))) =
  payload (long_line, None) ++ payload (short_line, None) /\
  shown (Nat.iter 4 (process_due no_codec)
           (write (short_line, None)
              (write (long_line, None) (init unit)))) =
  shown (Nat.iter 2 (process_due no_codec)
           (write (short_line, None) (init unit))).
Proof.
  destruct (@updates_are_queued_last_one_stays unit no_codec (init unit)
              (long_line, None) (short_line, None)
              (wf_init unit) eq_refl) as (H1 & _ & H3).
  split; [exact H1 | exact H3].
Defined.


Lemma marquee_scroll_window_periodic_witness :
  now_playing_var (_start_marquee long_line (init unit)) =
  [NOTE; SPACE] ++ lit "A Very Long Song Title That Does N" /\
  now_playing_var
    (Nat.iter 2 (fire_marquee_timer no_codec)
       (_start_marquee long_line (init unit))) =
  [SPACE] ++ lit "A Very Long Song Title That Does No" /\
  now_playing_var
    (Nat.iter 2 (fire_marquee_timer no_codec)
       (_start_marquee long_line (init unit))) =
  firstn 36 (skipn 1 (long_line ++ MARQUEE_GAP ++ long_line)) /\
  nth 3 (now_playing_var
           (Nat.iter 2 (fire_marquee_timer no_codec)
              (_start_marquee long_line (init unit)))) SPACE =
  nth 4 long_line SPACE /\
  now_playing_var
    (Nat.iter (2 + length (long_line ++ MARQUEE_GAP ++ long_line))
       (fire_marquee_timer no_codec)
       (_start_marquee long_line (init unit))) =
  now_playing_var
    (Nat.iter 2 (fire_marquee_timer no_codec)
       (_start_marquee long_line (init unit))).
Proof.
  assert (Ht : tracked (init unit)) by (intros t []).
  assert (Hlen : MARQUEE_WINDOW_CHARS < length (strip long_line))
    by (vm_compute; lia).
  assert (H3 : 3 < MARQUEE_WINDOW_CHARS) by (vm_compute; lia).
  destruct (@marquee_scroll_window_periodic unit no_codec long_line
              (init unit) 1 Ht eq_refl Hlen)
    as (A & _ & _ & _ & E & _ & X & N).
  split; [rewrite A; vm_compute; reflexivity|].
  split; [rewrite X; vm_compute; reflexivity|].
  split; [rewrite X; vm_compute; reflexivity|].
  split; [rewrite (N 3 H3); vm_compute; reflexivity|].
  exact E.
Defined.

Lemma short_text_is_static_witness :
  now_playing_var (_start_marquee exact_line (init unit)) = exact_line /\
  marquee_timers (_start_marquee exact_line (init unit)) = [] /\
  now_playing_var (_start_marquee [] (init unit)) = [].
Proof.
  assert (Ht : tracked (init unit)) by (intros t []).
  assert (H36 : length (strip exact_line) <= MARQUEE_WINDOW_CHARS)
    by (vm_compute; lia).
  assert (H0 : length (strip []) <= MARQUEE_WINDOW_CHARS)
    by (vm_compute; lia).
  destruct (@short_text_is_static unit no_codec exact_line (init unit)
              Ht H36) as (A & _ & _ & _ & B & _).
  destruct (@short_text_is_static unit no_codec [] (init unit)
              Ht H0) as (C & _).
  split; [exact A|]. split; [exact B | exact C].
Defined.

Lemma marquee_uses_stripped_line_witness :
  now_playing_var (_start_marquee padded_line (init unit)) = lit "Song" /\
  now_playing_var (_start_marquee padded_line (init unit)) <> padded_line.
Proof.
  assert (Ht : tracked (init unit)) by (intros t []).
  assert (Hfit : length (strip padded_line) <= MARQUEE_WINDOW_CHARS)
    by (vm_compute; lia).
  assert (Hlong : MARQUEE_WINDOW_CHARS < length padded_line)
    by (vm_compute; lia).
  destruct (proj1 (@marquee_uses_stripped_line unit padded_line (init unit)
                     Ht) Hfit) as (A & _ & _ & B).
  split; [exact A | exact (B Hlong)].
Defined.

Lemma poll_result_normalized_witness :
  strip (lit "Song") = lit "Song" /\ strip (lit "Band") = lit "Band" /\
  (lit "Song" <> [] \/ lit "Band" <> []).
Proof.
  exact (@poll_result_normalized
           (session_with {| title := Some (lit "  Song ");
                            artist := Some (lit "Band  ");
                            thumbnail := None |})
           (lit "Song") (lit "Band") None eq_refl).
Defined.

Lemma loop_compares_with_latest_success_witness :
  nth 2 (_update_loop [playing "Song" "Band"; failing;
                       playing "Other" "Band"]) [] =
  update_of (lit "Other") None.
Proof.
  exact (proj2 (@loop_compares_with_latest_success
                  [playing "Song" "Band"; failing; playing "Other" "Band"]
                  2 _ eq_refl)).
Defined.

Lemma display_never_wider_than_window_witness :
  length (now_playing_var
            (fire no_codec
               {| tid := 0; delay := 0;
                  callback_of := CbStartMarquee long_line |}
               (snd (after 0 (CbStartMarquee long_line) (init unit))))) <=
  MARQUEE_WINDOW_CHARS.
Proof.
  apply (@display_never_wider_than_window unit no_codec).
  refine (reachable_step
            (reachable_step (reachable_init no_codec)
               (step_after no_codec (init unit)
                  (CbStartMarquee long_line) eq_refl))
            (step_fire no_codec _ _ _)).
  left. reflexivity.
Defined.

Lemma label_image_is_kept_photo_witness :
  art_label_image
    (fire no_codec
       {| tid := 0; delay := 0; callback_of := CbSetArt (Some [Byte.x01]) |}
       (snd (after 0 (CbSetArt (Some [Byte.x01])) (init unit)))) =
  _photo
    (fire no_codec
       {| tid := 0; delay := 0; callback_of := CbSetArt (Some [Byte.x01]) |}
       (snd (after 0 (CbSetArt (Some [Byte.x01])) (init unit)))).
Proof.
  apply (@label_image_is_kept_photo unit no_codec).
  refine (reachable_step
            (reachable_step (reachable_init no_codec)
               (step_after no_codec (init unit)
                  (CbSetArt (Some [Byte.x01])) eq_refl))
            (step_fire no_codec _ _ _)).
  left. reflexivity.
Defined.

Lemma changed_poll_is_rendered_witness :
  now_playing_var
    (Nat.iter 2 (process_due no_codec)
       (post (snd (_update_loop_body (playing "Song" "Band") None))
             (init unit))) =
  display_line (lit "Song").
Proof.
  assert (Hne : None <> Some (lit "Song", lit "Band")) by discriminate.
  exact (proj1 (@changed_poll_is_rendered unit no_codec (init unit)
                  (playing "Song" "Band") None (lit "Song") (lit "Band")
                  None (wf_init unit) eq_refl eq_refl Hne)).
Defined.

Lemma failed_poll_is_rendered_witness :
  now_playing_var
    (Nat.iter 2 (process_due no_codec)
       (post (snd (_update_loop_body failing None)) (init unit))) =
  ERROR_LINE /\
  pending
    (Nat.iter 2 (process_due no_codec)
       (post (snd (_update_loop_body failing None)) (init unit))) = [].
Proof.
  destruct (@failed_poll_is_rendered unit no_codec (init unit) failing None
              (wf_init unit) eq_refl eq_refl) as (A & B & _).
  split; [exact A | exact B].
Defined.

Lemma destroy_stops_marquee_witness :
  _stop (destroy (init unit)) = true /\
  marquee_timers (destroy (init unit)) = [].
Proof.
  destruct (@destroy_stops_marquee unit no_codec (init unit)
              (reachable_init no_codec)) as (A & B & _).
  split; [exact A | exact B].
Defined.

Lemma start_pause_firing_keeps_display_witness :
  now_playing_var
    (fire_marquee_timer no_codec (_start_marquee long_line (init unit))) =
  now_playing_var (_start_marquee long_line (init unit)).
Proof.
  assert (Ht : tracked (init unit)) by (intros t []).
  assert (Hlen : MARQUEE_WINDOW_CHARS < length (strip long_line))
    by (vm_compute; lia).
  exact (proj1 (@start_pause_firing_keeps_display unit no_codec long_line
                  (init unit) Ht eq_refl Hlen)).
Defined.

Lemma first_pass_is_unpadded_witness :
  now_playing_var
    (Nat.iter 58 (fire_marquee_timer no_codec)
       (_start_marquee long_line (init unit))) =
  firstn MARQUEE_WINDOW_CHARS
    (skipn 57 (strip long_line ++ MARQUEE_GAP ++ strip long_line)).
Proof.
  assert (Ht : tracked (init unit)) by (intros t []).
  assert (Hlen : MARQUEE_WINDOW_CHARS < length (strip long_line))
    by (vm_compute; lia).
  assert (Hk : 57 <= length (strip long_line) + length MARQUEE_GAP)
    by (vm_compute; lia).
  exact (proj1 (@first_pass_is_unpadded unit no_codec long_line
                  (init unit) 57 Ht eq_refl Hlen Hk)).
Defined.

Lemma buffer_end_is_padded_witness :
  now_playing_var
    (Nat.iter 107 (fire_marquee_timer no_codec)
       (_start_marquee long_line (init unit))) =
  skipn 106 (strip long_line ++ MARQUEE_GAP ++ strip long_line) ++
  repeat SPACE 35.
Proof.
  assert (Ht : tracked (init unit)) by (intros t []).
  assert (Hlen : MARQUEE_WINDOW_CHARS < length (strip long_line))
    by (vm_compute; lia).
  assert (Hi : length (strip long_line ++ MARQUEE_GAP ++ strip long_line) <
               106 mod length (strip long_line ++ MARQUEE_GAP ++
                               strip long_line) + MARQUEE_WINDOW_CHARS)
    by (vm_compute; lia).
  exact (@buffer_end_is_padded unit no_codec long_line (init unit) 106
           Ht eq_refl Hlen Hi).
Defined.

Lemma clicks_leave_no_key_down_witness :
  fold_left click [BtnPlayPause; BtnNext] [] =
  [{| bVk := 179; bScan := 0; dwFlags := 0; dwExtraInfo := 0 |};
   {| bVk := 179; bScan := 0; dwFlags := 2; dwExtraInfo := 0 |};
   {| bVk := 176; bScan := 0; dwFlags := 0; dwExtraInfo := 0 |};
   {| bVk := 176; bScan := 0; dwFlags := 2; dwExtraInfo := 0 |}] /\
  keys_down (fold_left click [BtnPlayPause; BtnNext] []) [] = [] /\
  keys_down [{| bVk := 175; bScan := 0; dwFlags := 0; dwExtraInfo := 0 |}]
            [] = [175%Z].
Proof.
  destruct (@clicks_leave_no_key_down [BtnPlayPause; BtnNext] [] eq_refl)
    as (A & B & C & _).
  split; [exact A|]. split; [exact C|].
  exact (proj1 (B BtnVolumeUp)).
Defined.

Lemma callbacks_keep_waiting_updates_witness :
  channel
    (run_callback no_codec (CbStartMarquee short_line)
       (snd (after 0 (CbSetArt None) (init unit)))) =
  [CbSetArt None].
Proof.
  refine (@callbacks_keep_waiting_updates unit no_codec
            (snd (after 0 (CbSetArt None) (init unit)))
            (CbStartMarquee short_line)
            (reachable_step (reachable_init no_codec)
               (step_after no_codec (init unit) (CbSetArt None) eq_refl))).
Defined.
